(** * Concentration (memory match): the game logic of [src/App.tsx] and the
      leaderboard service of [server/index.js], embedded and verified. *)

From Stdlib Require Import ZArith QArith Lqa Floats Uint63 Sorted Ascii String.
From stdpp Require Import base decidable option list strings pretty.

Local Open Scope Z_scope.

(** ** Random numbers

    [Math.random] is the only source of non-determinism of the client.  It is
    an arbitrary sequence of draws; [Math.floor(Math.random() * n)] is the next
    draw reduced below [n], so that every index in [0, n) is possible and no
    other. *)
Module Rand.

Record gen := Gen { draws : nat → nat; pos : nat }.

Definition below (n : nat) (g : gen) : nat * gen :=
  ((draws g (pos g) `mod` n)%nat, Gen (draws g) (S (pos g))).

Definition const (k : nat) : gen := Gen (λ _, k) 0.

End Rand.

(** ** Cards and deck generation (App.tsx, lines 8-39) *)
Module Deck.

Record Card := mkCard {
  id : string;
  pairId : string;
  content : string;
  matched : bool
}.

Global Instance Card_eq_dec : EqDecision Card.
Proof. solve_decision. Defined.

(** [[a[i], a[j]] = [a[j], a[i]]]: both reads happen before the writes. *)
Definition swap {T} (a : list T) (i j : nat) : list T :=
  match a !! i, a !! j with
  | Some x, Some y => <[j:=x]> (<[i:=y]> a)
  | _, _ => a
  end.

(** The loop [for (let i = a.length - 1; i > 0; i--)] of [shuffle], entered
    with the loop variable at [i]; [j] is drawn from [0 .. i]. *)
Fixpoint shuffle_from {T} (i : nat) (a : list T) (g : Rand.gen) : list T * Rand.gen :=
  match i with
  | O => (a, g)
  | S i' =>
      let '(j, g') := Rand.below (i + 1) g in
      shuffle_from i' (swap a i j) g'
  end.

Definition shuffle {T} (arr : list T) (g : Rand.gen) : list T * Rand.gen :=
  shuffle_from (length arr - 1)%nat arr g.

Definition EMOJI_POOL : list string :=
  ["🍎";"🍌";"🍇";"🍓";"🥑";"🍒";"🍋";"🍉";"🥕";"🍆";"🍍";"🥥";"🥝";"🌽";
   "🥦";"🍑";"🍐";"🍊";"🍔";"🍕";"🍩";"🍪";"🍫";"🍿";"🍰";"🍯";"🧀";"🥨"]%string.

(** [arr.slice(0, end)] for an integer [end]: a negative [end] counts from
    the back, and the result never reaches past the array. *)
Definition slice0 {T} (arr : list T) (e : Z) : list T :=
  let len := Z.of_nat (length arr) in
  let final := if e <? 0 then Z.max (len + e) 0 else Z.min e len in
  take (Z.to_nat final) arr.

(** The callback of [flatMap] in [generateDeck]. *)
Definition pair_cards (idx : nat) (emoji : string) : list Card :=
  let pairId := ("p" +:+ pretty idx)%string in
  let a := mkCard (pairId +:+ "a") pairId emoji false in
  let b := mkCard (pairId +:+ "b") pairId emoji false in
  [a; b].

Definition flatMap {A B} (f : nat → A → list B) (l : list A) : list B :=
  concat (imap f l).

Definition generateDeck (pairs : Z) (g : Rand.gen) : list Card * Rand.gen :=
  let '(shuffled, g1) := shuffle EMOJI_POOL g in
  let pool := slice0 shuffled pairs in
  let deck := flatMap pair_cards pool in
  shuffle deck g1.

(** The pair identity written by [generateDeck] for index [k]. *)
Definition pid (k : nat) : string := ("p" +:+ pretty k)%string.

(** The cards produced for the pool entries from index [n] on. *)
Definition cards_from (n : nat) (pool : list string) : list Card :=
  concat (imap (λ i, pair_cards (n + i)) pool).

(** How many cards of a deck carry the pair identity [p]. *)
Definition count_pair (p : string) (d : list Card) : nat :=
  length (filter (λ c, pairId c = p) d).

End Deck.

(** ** Star rating (App.tsx, lines 200-206)

    [moves] and [pairs] are JavaScript numbers, that is IEEE 754 doubles, and
    the rating divides them: the embedding uses the kernel's binary64 floats,
    whose operations are the ones JavaScript specifies. *)
Module Stars.

(** The number held by a counter of the game. *)
Definition number_of (n : Z) : float := PrimFloat.of_uint63 (Uint63.of_Z n).

#[warnings="-inexact-float"]
Definition stars (moves pairs : float) : Z :=
  if (moves =? 0)%float then 3 else
  let ratio := (moves / pairs)%float in
  if (ratio <=? 1.2)%float then 3 else
  if (ratio <=? 2)%float then 2 else 1.

(** The rating in the words of the specification, over exact rationals:
    [M / P ≤ 1.2] is [5 M ≤ 6 P] and [M / P ≤ 2] is [M ≤ 2 P], for [P > 0]. *)
Definition stars_exact (M P : Z) : Z :=
  if M =? 0 then 3 else
  if 5 * M <=? 6 * P then 3 else
  if M <=? 2 * P then 2 else 1.

(** The counts [(M, P)] with [M ≤ mmax] and [1 ≤ P ≤ pmax] on which the
    floating-point rating and the exact one agree. *)
Definition agree_upto (mmax pmax : nat) : bool :=
  forallb (λ M, forallb (λ P,
      stars (number_of (Z.of_nat M)) (number_of (Z.of_nat (S P)))
        =? stars_exact (Z.of_nat M) (Z.of_nat (S P)))
    (seq 0 pmax)) (seq 0 (S mmax)).

End Stars.

(** ** Dates: [Date.prototype.toISOString] (ECMAScript, 21.4)

    Time values are milliseconds since the epoch.  The functions below are
    the ones of the language specification, on the integers. *)
Module Time.

Definition msPerDay : Z := 86400000.

Definition Day (t : Z) : Z := t / msPerDay.
Definition TimeWithinDay (t : Z) : Z := t mod msPerDay.

Definition DayFromYear (y : Z) : Z :=
  365 * (y - 1970) + (y - 1969) / 4 - (y - 1901) / 100 + (y - 1601) / 400.

Definition InLeapYear (y : Z) : Z :=
  if negb (y mod 4 =? 0) then 0
  else if negb (y mod 100 =? 0) then 1
  else if negb (y mod 400 =? 0) then 0
  else 1.

(** The largest [y] with [DayFromYear y ≤ day]: the estimate from the mean
    length of a year is off by one year at most. *)
Definition YearFromDay (day : Z) : Z :=
  let y := 1970 + (400 * day) / 146097 in
  if day <? DayFromYear y then y - 1
  else if DayFromYear (y + 1) <=? day then y + 1
  else y.

(** [MonthFromTime] and [DateFromTime], from the day within the year [d]
    and the leap-year flag [L]. *)
Definition MonthFromDay (d L : Z) : Z :=
  if d <? 31 then 0
  else if d <? 59 + L then 1
  else if d <? 90 + L then 2
  else if d <? 120 + L then 3
  else if d <? 151 + L then 4
  else if d <? 181 + L then 5
  else if d <? 212 + L then 6
  else if d <? 243 + L then 7
  else if d <? 273 + L then 8
  else if d <? 304 + L then 9
  else if d <? 334 + L then 10
  else 11.

Definition DateFromDay (d L : Z) : Z :=
  if d <? 31 then d + 1
  else if d <? 59 + L then d - 30
  else if d <? 90 + L then d - 58 - L
  else if d <? 120 + L then d - 89 - L
  else if d <? 151 + L then d - 119 - L
  else if d <? 181 + L then d - 150 - L
  else if d <? 212 + L then d - 180 - L
  else if d <? 243 + L then d - 211 - L
  else if d <? 273 + L then d - 242 - L
  else if d <? 304 + L then d - 272 - L
  else if d <? 334 + L then d - 303 - L
  else d - 333 - L.

Definition digit (d : Z) : ascii := ascii_of_nat (48 + Z.to_nat d).

(** The last [w] decimal digits of [n], most significant first. *)
Fixpoint pad (w : nat) (n : Z) : string :=
  match w with
  | O => EmptyString
  | S w' => pad w' (n / 10) +:+ String (digit (n mod 10)) EmptyString
  end.

Definition year_text (y : Z) : string :=
  if (0 <=? y) && (y <=? 9999) then pad 4 y
  else (if y <? 0 then "-" else "+") +:+ pad 6 (Z.abs y).

Definition toISOString (t : Z) : string :=
  let day := Day t in
  let tw := TimeWithinDay t in
  let y := YearFromDay day in
  let d := day - DayFromYear y in
  let L := InLeapYear y in
  year_text y +:+ "-" +:+ pad 2 (MonthFromDay d L + 1) +:+ "-" +:+ pad 2 (DateFromDay d L)
    +:+ "T" +:+ pad 2 (tw / 3600000) +:+ ":" +:+ pad 2 (tw / 60000 mod 60)
    +:+ ":" +:+ pad 2 (tw / 1000 mod 60) +:+ "." +:+ pad 3 (tw mod 1000) +:+ "Z".

(** The lexicographic combination of two comparisons. *)
Definition lexi (c1 c2 : comparison) : comparison :=
  match c1 with Eq => c2 | _ => c1 end.

(** Year, month and date of a day as one number. *)
Definition DateKey (day : Z) : Z :=
  let y := YearFromDay day in
  let d := day - DayFromYear y in
  let L := InLeapYear y in
  (y * 13 + (MonthFromDay d L + 1)) * 32 + DateFromDay d L.

(** The instants of the years 0000 to 9999, whose text has a year of four
    digits: from 0000-01-01T00:00:00.000Z to 9999-12-31T23:59:59.999Z. *)
Definition in_four_digit_years (t : Z) : Prop :=
  -62167219200000 ≤ t ≤ 253402300799999.

End Time.

(** ** The leaderboard service (server/index.js, server/db.js) *)
Module Server.

(** A number as [JSON.parse] gives it to the handler: a finite double, which
    is a rational, or an infinity (a literal beyond the range of doubles);
    never NaN.  The handler only compares numbers, and comparison of doubles
    is comparison of the rationals they denote. *)
Inductive number := Fin (q : Q) | Inf (negative : bool).

(** [x < y] on numbers. *)
Definition num_lt (x y : number) : bool :=
  match x, y with
  | Fin a, Fin b => negb (Qle_bool b a)
  | Inf true, Inf true => false
  | Inf true, _ => true
  | Fin _, Inf false => true
  | _, _ => false
  end.

(** A field of the request body after [express.json()]. *)
Inductive value :=
  | VUndefined
  | VNull
  | VBool (b : bool)
  | VNum (n : number)
  | VStr (s : string)
  | VObject.     (* an array or an object *)

(** [typeof v === 'number'] *)
Definition is_number (v : value) : bool :=
  match v with VNum _ => true | _ => false end.

(** The body of [POST /api/scores].  [name] and [difficulty] are JSON
    strings when present ([None]: absent or null), as the interface
    documents them; what the SQLite driver does with a name of another JSON
    type is not followed here. *)
Record payload := Payload {
  p_name : option string;
  p_seconds : value;
  p_moves : value;
  p_difficulty : option string
}.

(** [!s] for an optional string: absent, null and the empty string are falsy. *)
Definition missing (s : option string) : bool :=
  match s with
  | None => true
  | Some t => bool_decide (t = EmptyString)
  end.

(** A row of the table [scores] of db.js. *)
Record Row := mkRow {
  id : Z;
  name : string;
  seconds : Q;
  moves : Q;
  difficulty : string;
  created_at : string
}.

Inductive response :=
  | Json (r : Row)            (* res.json(...): status 200 *)
  | Status400 (error : string).

(** [info.lastInsertRowid] of an AUTOINCREMENT key in a table without
    deletions. *)
Definition next_id (table : list Row) : Z :=
  1 + foldr (λ r m, Z.max (id r) m) 0 table.

(** [app.post('/api/scores', ...)] at clock time [now]: the response and the
    table afterwards. *)
Definition post_scores (now : Z) (body : payload) (table : list Row)
  : response * list Row :=
  if missing (p_name body) || negb (is_number (p_seconds body))
     || negb (is_number (p_moves body)) || missing (p_difficulty body)
  then (Status400 "Invalid payload", table)
  else
    match p_name body, p_seconds body, p_moves body, p_difficulty body with
    | Some name, VNum seconds, VNum moves, Some difficulty =>
        if num_lt seconds (Fin 0) || num_lt (Fin 86400) seconds
           || num_lt moves (Fin 0) || num_lt (Fin 10000) moves
        then (Status400 "Invalid values", table)
        else
          match seconds, moves with
          | Fin s, Fin m =>
              let created_at := Time.toISOString now in
              let r := mkRow (next_id table) name s m difficulty created_at in
              (Json r, table ++ [r])
          | _, _ => (Status400 "Invalid values", table)
          end
    | _, _, _, _ => (Status400 "Invalid payload", table)
    end.

(** A field that holds a number outside the interval [[lo, hi]]. *)
Definition outside (lo hi : Q) (v : value) : Prop :=
  match v with
  | VNum (Fin q) => (q < lo)%Q ∨ (hi < q)%Q
  | VNum (Inf _) => True
  | _ => False
  end.

(** A body that passes the checks of the handler. *)
Definition valid (body : payload) : Prop :=
  (∃ n, p_name body = Some n ∧ n ≠ EmptyString) ∧
  (∃ s, p_seconds body = VNum (Fin s) ∧ (0 <= s)%Q ∧ (s <= 86400)%Q) ∧
  (∃ m, p_moves body = VNum (Fin m) ∧ (0 <= m)%Q ∧ (m <= 10000)%Q) ∧
  (∃ d, p_difficulty body = Some d ∧ d ≠ EmptyString).

(** *** [parseInt] without a radix (ECMAScript, 19.2.5) *)

(** White space and line terminators, as UTF-8 byte sequences. *)
Definition bytes (l : list nat) : string :=
  string_of_list_ascii (map ascii_of_nat l).

Definition white_space : list string :=
  map bytes
    [[9]; [10]; [11]; [12]; [13]; [32]; [194; 160]; [225; 154; 128];
     [226; 128; 128]; [226; 128; 129]; [226; 128; 130]; [226; 128; 131];
     [226; 128; 132]; [226; 128; 133]; [226; 128; 134]; [226; 128; 135];
     [226; 128; 136]; [226; 128; 137]; [226; 128; 138]; [226; 128; 168];
     [226; 128; 169]; [226; 128; 175]; [226; 129; 159]; [227; 128; 128];
     [239; 187; 191]]%nat.

Fixpoint drop_string (n : nat) (s : string) : string :=
  match n, s with
  | S n', String _ s' => drop_string n' s'
  | _, _ => s
  end.

Fixpoint trim_start (fuel : nat) (s : string) : string :=
  match fuel with
  | O => s
  | S fuel' =>
      match List.find (λ w, String.prefix w s) white_space with
      | Some w => trim_start fuel' (drop_string (String.length w) s)
      | None => s
      end
  end.

(** The value of a digit in the given radix, if it is one. *)
Definition digit_value (radix : Z) (c : ascii) : option Z :=
  let n := Z.of_nat (nat_of_ascii c) in
  let v :=
    if (48 <=? n) && (n <=? 57) then Some (n - 48)
    else if (97 <=? n) && (n <=? 122) then Some (n - 87)
    else if (65 <=? n) && (n <=? 90) then Some (n - 55)
    else None in
  match v with
  | Some d => if d <? radix then Some d else None
  | None => None
  end.

(** The longest prefix of digits, read in the radix; [None] when it is empty. *)
Fixpoint read_digits (radix : Z) (acc : option Z) (s : string) : option Z :=
  match s with
  | String c s' =>
      match digit_value radix c with
      | Some d => read_digits radix (Some (radix * default 0 acc + d)) s'
      | None => acc
      end
  | EmptyString => acc
  end.

(** [parseInt(s)]: [None] is NaN.  (The result is exact; the rounding of
    integers beyond 2^53 to a double is not modelled.) *)
Definition parseInt (s : string) : option Z :=
  let s1 := trim_start (String.length s) s in
  let '(sign, s2) :=
    match s1 with
    | String "-" r => (-1, r)
    | String "+" r => (1, r)
    | _ => (1, s1)
    end in
  let '(radix, s3) :=
    match s2 with
    | String "0" (String "x" r) => (16, r)
    | String "0" (String "X" r) => (16, r)
    | _ => (10, s2)
    end in
  match read_digits radix None s3 with
  | Some n => Some (sign * n)
  | None => None
  end.

(** The query of [GET /api/leaderboard]: each parameter is absent or a
    string. *)
Record query := Query {
  q_difficulty : option string;
  q_limit : option string
}.

(** [parseInt(req.query.limit) || 20]: [parseInt(undefined)] is NaN, and NaN
    and 0 are falsy. *)
Definition limit_of (q : query) : Z :=
  match q_limit q with
  | None => 20
  | Some s =>
      match parseInt s with
      | None => 20
      | Some n => if n =? 0 then 20 else n
      end
  end.

(** [req.query.difficulty || null], then [if (difficulty)]. *)
Definition difficulty_of (q : query) : option string :=
  match q_difficulty q with
  | Some d => if bool_decide (d = EmptyString) then None else Some d
  | None => None
  end.

(** [new Date(Date.now() - 24 * 60 * 60 * 1000).toISOString()] *)
Definition since (now : Z) : string :=
  Time.toISOString (now - 24 * 60 * 60 * 1000).

(** The columns of the SELECT. *)
Record Entry := mkEntry {
  e_name : string;
  e_seconds : Q;
  e_moves : Q;
  e_difficulty : string;
  e_created_at : string
}.

Definition columns (r : Row) : Entry :=
  mkEntry (name r) (seconds r) (moves r) (difficulty r) (created_at r).

(** [ORDER BY seconds ASC, moves ASC]: [r1] may stand before [r2]. *)
Definition before (r1 r2 : Row) : bool :=
  negb (Qle_bool (seconds r2) (seconds r1))
  || (Qeq_bool (seconds r1) (seconds r2) && Qle_bool (moves r1) (moves r2)).

Fixpoint insert_row (r : Row) (l : list Row) : list Row :=
  match l with
  | [] => [r]
  | r' :: l' => if before r r' then r :: l else r' :: insert_row r l'
  end.

Definition order_by (l : list Row) : list Row := foldr insert_row [] l.

(** [LIMIT n]: a negative [n] is no limit in SQLite. *)
Definition sql_limit (n : Z) (l : list Row) : list Row :=
  if n <? 0 then l else take (Z.to_nat n) l.

(** The WHERE clause: [created_at >= ?] compares TEXT byte-wise. *)
Definition selected (difficulty : option string) (since : string) (r : Row) : bool :=
  match difficulty with
  | Some d => bool_decide (Server.difficulty r = d)
  | None => true
  end && String.leb since (created_at r).

(** The order of the result: by seconds, ties by moves. *)
Definition row_le (r1 r2 : Row) : Prop :=
  (seconds r1 < seconds r2)%Q ∨
  ((seconds r1 == seconds r2)%Q ∧ (moves r1 <= moves r2)%Q).

Definition entry_le (e1 e2 : Entry) : Prop :=
  (e_seconds e1 < e_seconds e2)%Q ∨
  ((e_seconds e1 == e_seconds e2)%Q ∧ (e_moves e1 <= e_moves e2)%Q).

(** The rows of the table that the WHERE clause of a query keeps. *)
Definition matching (now : Z) (q : query) (table : list Row) : list Row :=
  List.filter (selected (difficulty_of q) (since now)) table.

(** [app.get('/api/leaderboard', ...)] at clock time [now]. *)
Definition get_leaderboard (now : Z) (q : query) (table : list Row) : list Entry :=
  let difficulty := difficulty_of q in
  let limit := limit_of q in
  let rows := sql_limit limit (order_by (List.filter (selected difficulty (since now)) table)) in
  map columns rows.

(** Two scores of the same day, for the examples. *)
Definition two_rows : list Row :=
  [mkRow 1 "Ann" 30 10 "easy" "2023-11-14T22:00:00.000Z";
   mkRow 2 "Bob" 20 15 "easy" "2023-11-14T22:10:00.000Z"].

End Server.

(** ** The local leaderboard cache (App.tsx, lines 47-67) *)
Module Leaderboard.

Inductive Difficulty := easy | medium | hard.

Global Instance Difficulty_eq_dec : EqDecision Difficulty.
Proof. solve_decision. Defined.

Definition difficulty_text (d : Difficulty) : string :=
  match d with easy => "easy" | medium => "medium" | hard => "hard" end.

Record Score := mkScore {
  name : string;
  seconds : Z;
  moves : Z;
  difficulty : Difficulty;
  date : string
}.

Global Instance Score_eq_dec : EqDecision Score.
Proof. solve_decision. Defined.

(** A JSON value that is not an array. *)
Inductive nonarray :=
  | JNull
  | JBool (b : bool)
  | JNumber (q : Q)
  | JString (s : string)
  | JObject.

(** The item of [localStorage] under [STORAGE_KEY], by what [JSON.parse]
    makes of its text.  (Arrays that hold something else than scores are not
    represented.) *)
Inductive item :=
  | Absent                   (* getItem returns null *)
  | Garbled                  (* a text that JSON.parse rejects, the empty text included *)
  | Board (l : list Score)   (* the text of an array of scores *)
  | Other (v : nonarray).    (* the text of a JSON value that is no array *)

(** What [loadLeaderboard] returns under its type [Score[]]: the cast
    checks nothing at run time. *)
Inductive loaded :=
  | Seq (l : list Score)
  | NotSeq (v : nonarray).

Definition loadLeaderboard (it : item) : loaded :=
  match it with
  | Absent => Seq []          (* if (!raw) return [] *)
  | Garbled => Seq []         (* if (!raw) return [], or JSON.parse throws: catch *)
  | Board l => Seq l
  | Other v => NotSeq v
  end.

(** The comparator [(a, b) => a.seconds - b.seconds || a.moves - b.moves]. *)
Definition compare_scores (a b : Score) : Z :=
  if negb (seconds a - seconds b =? 0) then seconds a - seconds b
  else moves a - moves b.

(** [Array.prototype.sort] is stable: an element goes before the first one
    it does not have to follow. *)
Fixpoint insert_score (x : Score) (l : list Score) : list Score :=
  match l with
  | [] => [x]
  | y :: l' => if compare_scores x y <=? 0 then x :: l else y :: insert_score x l'
  end.

Definition sort_scores (l : list Score) : list Score := foldr insert_score [] l.

(** [saveScoreLocal]: the item afterwards; [None] when [board.push] throws
    a TypeError because the loaded value is no array. *)
Definition saveScoreLocal (score : Score) (it : item) : option item :=
  match loadLeaderboard it with
  | Seq board =>
      let board := board ++ [score] in
      let board := sort_scores board in
      let trimmed := take 20 board in
      Some (Board trimmed)
  | NotSeq _ => None
  end.

(** An item from which [loadLeaderboard] returns a sequence. *)
Definition loadable (it : item) : Prop := ∃ l, loadLeaderboard it = Seq l.

(** How many scores of a board go before a new score [s] in the sorted
    order: those the comparator does not put after it. *)
Definition rank (s : Score) (board : list Score) : nat :=
  length (filter (λ x, compare_scores x s ≤ 0) board).

(** How often a score stands in a list, and in the cache. *)
Definition count (score : Score) (l : list Score) : nat :=
  length (filter (λ x, x = score) l).

Definition occurrences (score : Score) (it : item) : nat :=
  match it with
  | Board l => count score l
  | _ => 0
  end.

End Leaderboard.

(** ** The game (App.tsx, lines 96-206)

    The state is the React state of [App]; an event handler reads the state
    of the render it belongs to and its updates are applied together.  A
    callback given to [setTimeout] keeps the state of the render in which
    [handleFlip] ran.  A flip is a click on a card; the keyboard navigation
    is left out. *)
Module Game.
Import Deck.

(** What [setLeaderboard] was given: the local cache, or the rows of the
    service. *)
Inductive board :=
  | Cached (v : Leaderboard.loaded)
  | Remote (rows : list Server.Entry).

Record App := mkApp {
  difficulty : Leaderboard.Difficulty;
  pairs : Z;
  deck : list Card;
  flipped : list string;
  moves : Z;
  matches : Z;
  seconds : Z;
  running : bool;
  locked : bool;
  name : string;
  leaderboard : board;
  focusedIndex : option Z
}.

Definition set_difficulty v (a : App) : App :=
  mkApp v (pairs a) (deck a) (flipped a) (moves a) (matches a) (seconds a)
    (running a) (locked a) (name a) (leaderboard a) (focusedIndex a).
Definition set_pairs v (a : App) : App :=
  mkApp (difficulty a) v (deck a) (flipped a) (moves a) (matches a) (seconds a)
    (running a) (locked a) (name a) (leaderboard a) (focusedIndex a).
Definition set_deck v (a : App) : App :=
  mkApp (difficulty a) (pairs a) v (flipped a) (moves a) (matches a) (seconds a)
    (running a) (locked a) (name a) (leaderboard a) (focusedIndex a).
Definition set_flipped v (a : App) : App :=
  mkApp (difficulty a) (pairs a) (deck a) v (moves a) (matches a) (seconds a)
    (running a) (locked a) (name a) (leaderboard a) (focusedIndex a).
Definition set_moves v (a : App) : App :=
  mkApp (difficulty a) (pairs a) (deck a) (flipped a) v (matches a) (seconds a)
    (running a) (locked a) (name a) (leaderboard a) (focusedIndex a).
Definition set_matches v (a : App) : App :=
  mkApp (difficulty a) (pairs a) (deck a) (flipped a) (moves a) v (seconds a)
    (running a) (locked a) (name a) (leaderboard a) (focusedIndex a).
Definition set_seconds v (a : App) : App :=
  mkApp (difficulty a) (pairs a) (deck a) (flipped a) (moves a) (matches a) v
    (running a) (locked a) (name a) (leaderboard a) (focusedIndex a).
Definition set_running v (a : App) : App :=
  mkApp (difficulty a) (pairs a) (deck a) (flipped a) (moves a) (matches a) (seconds a)
    v (locked a) (name a) (leaderboard a) (focusedIndex a).
Definition set_locked v (a : App) : App :=
  mkApp (difficulty a) (pairs a) (deck a) (flipped a) (moves a) (matches a) (seconds a)
    (running a) v (name a) (leaderboard a) (focusedIndex a).
Definition set_name v (a : App) : App :=
  mkApp (difficulty a) (pairs a) (deck a) (flipped a) (moves a) (matches a) (seconds a)
    (running a) (locked a) v (leaderboard a) (focusedIndex a).
Definition set_leaderboard v (a : App) : App :=
  mkApp (difficulty a) (pairs a) (deck a) (flipped a) (moves a) (matches a) (seconds a)
    (running a) (locked a) (name a) v (focusedIndex a).
Definition set_focusedIndex v (a : App) : App :=
  mkApp (difficulty a) (pairs a) (deck a) (flipped a) (moves a) (matches a) (seconds a)
    (running a) (locked a) (name a) (leaderboard a) v.

(** [deck.find(c => c.id === cardId)] and [deck.findIndex(...)], the index
    being -1 when there is none. *)
Definition find_card (cardId : string) (d : list Card) : option Card :=
  snd <$> list_find (λ c, id c = cardId) d.

Definition findIndex (cardId : string) (d : list Card) : Z :=
  match list_find (λ c, id c = cardId) d with
  | Some (i, _) => Z.of_nat i
  | None => -1
  end.

(** A pending [setTimeout] callback. *)
Inductive Timer :=
  | OnMatch (card : Card) (render : App)   (* after 600 ms *)
  | OnMismatch.                            (* after 800 ms *)

(** [handleFlip(cardId)]: the state after the handler's updates, and the
    callback it hands to [setTimeout], if any. *)
Definition handleFlip (cardId : string) (a : App) : App * option Timer :=
  if locked a then (a, None) else
  match find_card cardId (deck a) with
  | None => (a, None)
  | Some card =>
      if matched card then (a, None) else
      let a1 := if negb (running a) then set_running true a else a in
      if bool_decide (cardId ∈ flipped a) then (a1, None) else
      match flipped a with
      | [] =>
          (set_focusedIndex (Some (findIndex cardId (deck a)))
             (set_flipped [cardId] a1), None)
      | [firstId] =>
          let a2 := set_moves (moves a + 1)
                      (set_locked true (set_flipped [firstId; cardId] a1)) in
          match find_card firstId (deck a) with
          | Some firstCard =>
              if bool_decide (pairId firstCard = pairId card)
              then (a2, Some (OnMatch card a))
              else (a2, Some OnMismatch)
          | None =>
              (* [firstCard.pairId] throws; the updates queued before it stay *)
              (a2, None)
          end
      | _ => (a1, None)
      end
  end.

(** A flip that reveals the second card of a round: one card was face up
    before it and two are after it. *)
Definition two_card_reveal (a a' : App) : Prop :=
  length (flipped a) = 1%nat ∧ length (flipped a') = 2%nat.

(** [restart(p)] *)
Definition restart (p : Z) (a : App) (g : Rand.gen) : App * Rand.gen :=
  let '(d, g') := generateDeck p g in
  (set_focusedIndex None (set_locked false (set_running false (set_seconds 0
     (set_matches 0 (set_moves 0 (set_flipped [] (set_deck d a))))))), g').

(** [deck.every(c => c.matched)] *)
Definition allMatched (a : App) : bool := forallb matched (deck a).

Definition stars (a : App) : Z :=
  Stars.stars (Stars.number_of (moves a)) (Stars.number_of (pairs a)).

(** The map of the effect on [difficulty]. *)
Definition pairs_of (d : Leaderboard.Difficulty) : Z :=
  match d with
  | Leaderboard.easy => 8
  | Leaderboard.medium => 12
  | Leaderboard.hard => 18
  end.

(** [prev.map(c => c.pairId === card.pairId ? {...c, matched: true} : c)] *)
Definition mark_matched (p : string) (d : list Card) : list Card :=
  map (λ c, if bool_decide (pairId c = p)
            then mkCard (id c) (pairId c) (content c) true else c) d.

(** *** The world around the component *)

(** How a [fetch] ends: it rejects, or the service answers. *)
Inductive fetch := NetworkError | Delivered.

(** What the environment decides when a callback runs: the clocks of the
    browser and of the service, and the fate of the two requests. *)
Record Env := mkEnv {
  clock : Z;
  server_clock : Z;
  post : fetch;
  get : fetch
}.

Record World := mkWorld {
  app : App;
  timers : list Timer;       (* the pending setTimeout callbacks *)
  rng : Rand.gen;
  cache : Leaderboard.item;  (* localStorage *)
  table : list Server.Row    (* the table of the service *)
}.

(** The body [saveScoreRemote] sends. *)
Definition body_of (s : Leaderboard.Score) : Server.payload :=
  Server.Payload (Some (Leaderboard.name s))
    (Server.VNum (Server.Fin (inject_Z (Leaderboard.seconds s))))
    (Server.VNum (Server.Fin (inject_Z (Leaderboard.moves s))))
    (Some (Leaderboard.difficulty_text (Leaderboard.difficulty s))).

(** [saveScoreLocal] as a statement: a TypeError leaves the item as it was. *)
Definition save_local (s : Leaderboard.Score) (it : Leaderboard.item) : Leaderboard.item :=
  default it (Leaderboard.saveScoreLocal s it).

(** [saveScoreRemote(s)] once its [fetch] has settled: the table of the
    service and the cache.  The answer of the service is not looked at; a
    rejected [fetch] is caught and the score saved locally. *)
Definition saveScoreRemote (e : Env) (s : Leaderboard.Score)
    (table : list Server.Row) (it : Leaderboard.item)
  : list Server.Row * Leaderboard.item :=
  match post e with
  | Delivered => ((Server.post_scores (server_clock e) (body_of s) table).2, it)
  | NetworkError => (table, save_local s it)
  end.

(** [loadLeaderboardRemote(difficulty)], with its default limit of 20. *)
Definition loadLeaderboardRemote (e : Env) (d : Leaderboard.Difficulty)
    (table : list Server.Row) (it : Leaderboard.item) : board :=
  match get e with
  | Delivered =>
      Remote (Server.get_leaderboard (server_clock e)
                (Server.Query (Some (Leaderboard.difficulty_text d)) (Some "20")) table)
  | NetworkError => Cached (Leaderboard.loadLeaderboard it)
  end.

(** The score built on completion, from the render the callback closed over. *)
Definition score_of (e : Env) (render : App) : Leaderboard.Score :=
  Leaderboard.mkScore
    (if bool_decide (name render = EmptyString) then "Player" else name render)
    (seconds render) (moves render + 1) (difficulty render)
    (Time.toISOString (clock e)).

(** The callback of a matching pair.  The requests are sent in the order of
    the calls and settle in that order: the score is saved locally at once,
    then the submission settles, then the leaderboard is fetched.  When the
    local save throws, the callback ends there. *)
Definition on_match (e : Env) (card : Card) (render : App) (w : World) : World :=
  let a := set_locked false (set_matches (matches (app w) + 1)
             (set_flipped [] (set_deck (mark_matched (pairId card) (deck (app w))) (app w)))) in
  let newMatchCount := matches render + 1 in
  if newMatchCount =? pairs render then
    let a := set_running false a in
    let s := score_of e render in
    match Leaderboard.saveScoreLocal s (cache w) with
    | Some it1 =>
        let '(table', it2) := saveScoreRemote e s (table w) it1 in
        let b := loadLeaderboardRemote e (difficulty render) table' it2 in
        mkWorld (set_leaderboard b a) (timers w) (rng w) it2 table'
    | None =>
        let '(table', it2) := saveScoreRemote e s (table w) (cache w) in
        mkWorld a (timers w) (rng w) it2 table'
    end
  else mkWorld a (timers w) (rng w) (cache w) (table w).

Definition on_mismatch (w : World) : World :=
  mkWorld (set_locked false (set_flipped [] (app w)))
    (timers w) (rng w) (cache w) (table w).

Inductive Event :=
  | Flip (cardId : string)                    (* a click on a card *)
  | Fire (k : nat) (e : Env)                  (* the k-th pending callback runs *)
  | Tick                                      (* the interval of the timer *)
  | Restart                                   (* the Restart button *)
  | SetDifficulty (d : Leaderboard.Difficulty)
  | StartPause                                (* the Start / Pause button *)
  | SetName (n : string)
  | ClearLeaderboard
  | Refresh
  | Storage (it : Leaderboard.item).          (* another page writes the item *)

Definition with_app (a : App) (w : World) : World :=
  mkWorld a (timers w) (rng w) (cache w) (table w).

Definition step (w : World) (ev : Event) : World :=
  match ev with
  | Flip cardId =>
      let '(a, t) := handleFlip cardId (app w) in
      mkWorld a (timers w ++ option_list t) (rng w) (cache w) (table w)
  | Fire k e =>
      match timers w !! k with
      | Some t =>
          let w' := mkWorld (app w) (delete k (timers w)) (rng w) (cache w) (table w) in
          match t with
          | OnMatch card render => on_match e card render w'
          | OnMismatch => on_mismatch w'
          end
      | None => w
      end
  | Tick =>
      if running (app w) then with_app (set_seconds (seconds (app w) + 1) (app w)) w
      else w
  | Restart =>
      let '(a, g) := restart (pairs (app w)) (app w) (rng w) in
      mkWorld a (timers w) g (cache w) (table w)
  | SetDifficulty d =>
      if bool_decide (d = difficulty (app w)) then w
      else
        let '(a, g) := restart (pairs_of d)
                         (set_pairs (pairs_of d) (set_difficulty d (app w))) (rng w) in
        mkWorld a (timers w) g (cache w) (table w)
  | StartPause => with_app (set_running (negb (running (app w))) (app w)) w
  | SetName n => with_app (set_name n (app w)) w
  | ClearLeaderboard =>
      mkWorld (set_leaderboard (Cached (Leaderboard.Seq [])) (app w))
        (timers w) (rng w) Leaderboard.Absent (table w)
  | Refresh =>
      with_app (set_leaderboard (Cached (Leaderboard.loadLeaderboard (cache w))) (app w)) w
  | Storage it =>
      mkWorld (set_leaderboard (Cached (Leaderboard.loadLeaderboard it)) (app w))
        (timers w) (rng w) it (table w)
  end.

Definition run (w : World) (evs : list Event) : World := foldl step w evs.

(** The component once mounted: the initial state of the [useState] calls,
    then the effect on [difficulty], which restarts the game. *)
Definition init (g : Rand.gen) (it : Leaderboard.item) (table : list Server.Row) : World :=
  let '(d, g1) := generateDeck 12 g in
  let a0 := mkApp Leaderboard.medium 12 d [] 0 0 0 false false "Player"
              (Cached (Leaderboard.loadLeaderboard it)) None in
  let '(a, g2) := restart (pairs_of Leaderboard.medium)
                    (set_pairs (pairs_of Leaderboard.medium) a0) g1 in
  mkWorld a [] g2 it table.

Definition reachable (w : World) : Prop :=
  ∃ g it table evs, w = run (init g it table) evs.

(** A restart that overtakes a pending callback: the Restart button, or a
    change of difficulty, while a [setTimeout] callback has yet to run. *)
Definition overtakes (w : World) (ev : Event) : Prop :=
  timers w ≠ [] ∧
  (ev = Restart ∨ ∃ d, ev = SetDifficulty d ∧ d ≠ difficulty (app w)).

(** The worlds reached without such a restart. *)
Inductive orderly : World → Prop :=
  | orderly_init g it table : orderly (init g it table)
  | orderly_step w ev : orderly w → ¬ overtakes w ev → orderly (step w ev).

(** The check, event by event, that a run from [w] has no such restart. *)
Definition overtakesb (w : World) (ev : Event) : bool :=
  match timers w, ev with
  | [], _ => false
  | _, Restart => true
  | _, SetDifficulty d => negb (bool_decide (d = difficulty (app w)))
  | _, _ => false
  end.

Fixpoint orderlyb (w : World) (evs : list Event) : bool :=
  match evs with
  | [] => true
  | ev :: evs' => negb (overtakesb w ev) && orderlyb (step w ev) evs'
  end.

(** The deck of [generateDeck] for a pool of symbols, pair [n + k] marked
    as matched when the [k]-th flag says so. *)
Fixpoint marked_from (n : nat) (pool : list string) (flags : list bool) : list Card :=
  match pool, flags with
  | e :: pool', f :: flags' =>
      mkCard (pid n +:+ "a") (pid n) e f :: mkCard (pid n +:+ "b") (pid n) e f
        :: marked_from (S n) pool' flags'
  | _, _ => []
  end.

Definition count_true (flags : list bool) : Z :=
  Z.of_nat (length (filter (λ f, f = true) flags)).

(** What the pending callbacks are in an orderly world: none; or the one of
    a mismatch, input locked; or the one of a match on a pair not yet
    marked, input locked. *)
Definition timers_ok (w : World) (flags : list bool) : Prop :=
  match timers w with
  | [] => True
  | [OnMismatch] => locked (app w) = true
  | [OnMatch card _] =>
      locked (app w) = true ∧ ∃ k, pairId card = pid k ∧ flags !! k = Some false
  | _ => False
  end.

(** The invariant of orderly worlds. *)
Definition paired (w : World) : Prop :=
  ∃ pool flags,
    length flags = length pool ∧ (length pool ≤ 28)%nat ∧
    pairs (app w) = Z.of_nat (length pool) ∧
    deck (app w) ≡ₚ marked_from 0 pool flags ∧
    matches (app w) = count_true flags ∧
    timers_ok w flags.

(** *** Scenarios *)

(** An environment in which the service is reachable, and one in which the
    submission fails. *)
Definition online : Env := mkEnv 1700000000000 1700000000000 Delivered Delivered.
Definition offline : Env := mkEnv 1700000000000 1700000000000 NetworkError NetworkError.

(** The state after the first card was turned and the game paused. *)
Definition paused_with_one_card : App :=
  app (run (init (Rand.const 0) Leaderboard.Absent []) [Flip "p0a"; StartPause]).

(** Turning the two cards of pair [k], and the callback that follows. *)
Definition play_pair (e : Env) (k : nat) : list Event :=
  [Flip (pid k +:+ "a"); Flip (pid k +:+ "b"); Fire 0 e].

(** A whole game of [n] pairs, pair after pair. *)
Definition play_all (e : Env) (n : nat) : list Event :=
  concat (map (play_pair e) (seq 0 n)).

(** A pair is found on the hard board and, before its callback runs (within
    600 ms), the difficulty is changed to easy; the callback then runs, and
    seven pairs of the new board are found. *)
Definition stale_match : list Event :=
  [SetDifficulty Leaderboard.hard; Flip "p17a"; Flip "p17b";
   SetDifficulty Leaderboard.easy; Fire 0 online]
  ++ play_all online 7.

(** A cache that is full of scores no game can beat. *)
Definition full_cache : Leaderboard.item :=
  Leaderboard.Board
    (replicate 20 (Leaderboard.mkScore "Ace" 0 1 Leaderboard.easy "2023-01-01T00:00:00.000Z")).

(** The easy game just before its last callback runs. *)
Definition last_pair_turned : World :=
  run (init (Rand.const 0) Leaderboard.Absent [])
    (SetDifficulty Leaderboard.easy :: play_all online 7 ++ [Flip "p7a"; Flip "p7b"]).

(** The card and the render of the first pending callback of a match. *)
Definition pending_card (w : World) : Card :=
  match timers w with
  | OnMatch card _ :: _ => card
  | _ => mkCard EmptyString EmptyString EmptyString false
  end.

Definition pending_render (w : World) : App :=
  match timers w with
  | OnMatch _ render :: _ => render
  | _ => app w
  end.

(** The score of the easy game played by [play_all] at the time of [online]. *)
Definition easy_score : Leaderboard.Score :=
  Leaderboard.mkScore "Player" 0 8 Leaderboard.easy "2023-11-14T22:13:20.000Z".

End Game.

(** ** Deck generation: proofs *)
Module DeckFacts.
Import Deck.

Lemma swap_Permutation {T} (a : list T) i j : swap a i j ≡ₚ a.
Proof.
  unfold swap. destruct (a !! i) as [x|] eqn:Hi; [|done].
  destruct (a !! j) as [y|] eqn:Hj; [|done].
  by apply Permutation_insert_swap.
Qed.

Lemma shuffle_from_Permutation {T} i (a : list T) g : (shuffle_from i a g).1 ≡ₚ a.
Proof.
  revert a g. induction i as [|i IH]; intros a g; [done|].
  cbn [shuffle_from]. destruct (Rand.below (S i + 1) g) as [j g'].
  rewrite IH. apply swap_Permutation.
Qed.

Lemma shuffle_Permutation {T} (a : list T) g : (shuffle a g).1 ≡ₚ a.
Proof. apply shuffle_from_Permutation. Qed.

Lemma EMOJI_POOL_NoDup : NoDup EMOJI_POOL.
Proof. apply (bool_decide_unpack _). by vm_compute. Qed.

Lemma EMOJI_POOL_length : length EMOJI_POOL = 28%nat.
Proof. reflexivity. Qed.

Lemma slice0_length {T} (arr : list T) e :
  0 ≤ e → Z.of_nat (length (slice0 arr e)) = Z.min e (Z.of_nat (length arr)).
Proof.
  intros He. unfold slice0. rewrite length_take.
  destruct (Z.ltb_spec e 0); lia.
Qed.

Lemma slice0_sublist {T} (arr : list T) e : slice0 arr e `sublist_of` arr.
Proof. apply sublist_take. Qed.

Lemma pid_inj k1 k2 : pid k1 = pid k2 → k1 = k2.
Proof. unfold pid. intros H. simpl in H. injection H as H. by apply (inj pretty). Qed.

Lemma flatMap_cards_from pool : flatMap pair_cards pool = cards_from 0 pool.
Proof. reflexivity. Qed.

Lemma cards_from_nil n : cards_from n [] = [].
Proof. reflexivity. Qed.

Lemma cards_from_cons n e pool :
  cards_from n (e :: pool) = pair_cards n e ++ cards_from (S n) pool.
Proof.
  unfold cards_from. simpl. rewrite Nat.add_0_r. do 3 f_equal.
  apply imap_ext. intros i x _. simpl. f_equal. lia.
Qed.

Lemma cards_from_length n pool : length (cards_from n pool) = (2 * length pool)%nat.
Proof.
  revert n. induction pool as [|e pool IH]; intros n; [done|].
  rewrite cards_from_cons, length_app, IH. simpl. lia.
Qed.

Lemma elem_of_cards_from n pool c :
  c ∈ cards_from n pool ↔
  ∃ k e, pool !! k = Some e ∧ c ∈ pair_cards (n + k) e.
Proof.
  revert n. induction pool as [|e pool IH]; intros n.
  - rewrite cards_from_nil. split; [by intros ?%elem_of_nil|].
    by intros (k & e & ? & _).
  - rewrite cards_from_cons, elem_of_app, IH. split.
    + intros [H|(k & e' & Hk & H)].
      * exists 0%nat, e. by rewrite Nat.add_0_r.
      * exists (S k), e'. split; [done|]. by replace (n + S k)%nat with (S n + k)%nat by lia.
    + intros ([|k] & e' & Hk & H).
      * left. simpl in Hk. injection Hk as ->. by rewrite Nat.add_0_r in H.
      * right. exists k, e'. split; [done|]. by replace (S n + k)%nat with (n + S k)%nat by lia.
Qed.

Lemma pair_cards_pairId k e c :
  c ∈ pair_cards k e → pairId c = pid k ∧ content c = e ∧ matched c = false.
Proof.
  unfold pair_cards. rewrite !elem_of_cons, elem_of_nil. by intros [->|[->|[]]].
Qed.

Global Instance count_pair_Permutation p : Proper ((≡ₚ) ==> (=)) (count_pair p).
Proof. intros d1 d2 H. unfold count_pair. by rewrite H. Qed.

Lemma count_pair_cards_from_none n pool p :
  (∀ k, (k < length pool)%nat → p ≠ pid (n + k)) →
  count_pair p (cards_from n pool) = 0%nat.
Proof.
  revert n. induction pool as [|e pool IH]; intros n Hp; [done|].
  rewrite cards_from_cons. unfold count_pair. rewrite filter_app, length_app.
  fold (count_pair p (cards_from (S n) pool)). rewrite IH.
  - unfold pair_cards. fold (pid n).
    assert (p ≠ pid n) as Hn.
    { specialize (Hp 0%nat). rewrite Nat.add_0_r in Hp. apply Hp. simpl. lia. }
    rewrite !filter_cons, filter_nil. simpl.
    rewrite !decide_False by (intros ?; by apply Hn). done.
  - intros k Hk. replace (S n + k)%nat with (n + S k)%nat by lia.
    apply Hp. simpl. lia.
Qed.

Lemma count_pair_cards_from n pool k :
  (k < length pool)%nat →
  count_pair (pid (n + k)) (cards_from n pool) = 2%nat.
Proof.
  revert n k. induction pool as [|e pool IH]; intros n k Hk; [simpl in Hk; lia|].
  rewrite cards_from_cons. unfold count_pair. rewrite filter_app, length_app.
  fold (count_pair (pid (n + k)) (cards_from (S n) pool)).
  unfold pair_cards. fold (pid n). rewrite !filter_cons, filter_nil. simpl.
  destruct k as [|k].
  - rewrite Nat.add_0_r. rewrite !decide_True by done. simpl.
    rewrite count_pair_cards_from_none; [done|].
    intros k _ ?%pid_inj. lia.
  - rewrite !decide_False by (intros ?%pid_inj; lia). simpl.
    replace (n + S k)%nat with (S n + k)%nat by lia.
    apply IH. simpl in Hk. lia.
Qed.

Lemma generateDeck_shape pairs g :
  ∃ pool, NoDup pool ∧ pool ⊆ EMOJI_POOL ∧
    (0 ≤ pairs → Z.of_nat (length pool) = Z.min pairs 28) ∧
    (generateDeck pairs g).1 ≡ₚ cards_from 0 pool.
Proof.
  unfold generateDeck.
  pose proof (shuffle_Permutation EMOJI_POOL g) as Hperm.
  destruct (shuffle EMOJI_POOL g) as [shuffled g1]. simpl in Hperm.
  exists (slice0 shuffled pairs). split_and!.
  - eapply sublist_NoDup; [|apply slice0_sublist].
    rewrite Hperm. apply EMOJI_POOL_NoDup.
  - intros x Hx. rewrite <-Hperm.
    by eapply subseteq_take.
  - intros Hp. rewrite slice0_length by done.
    by rewrite Hperm, EMOJI_POOL_length.
  - rewrite shuffle_Permutation. by rewrite flatMap_cards_from.
Qed.

Lemma cards_from_pairId_content pool c1 c2 :
  NoDup pool → c1 ∈ cards_from 0 pool → c2 ∈ cards_from 0 pool →
  (pairId c1 = pairId c2 ↔ content c1 = content c2).
Proof.
  intros Hnd (k1 & e1 & Hk1 & H1)%elem_of_cards_from (k2 & e2 & Hk2 & H2)%elem_of_cards_from.
  apply pair_cards_pairId in H1 as (-> & -> & _).
  apply pair_cards_pairId in H2 as (-> & -> & _). simpl. split.
  - intros ->%pid_inj. congruence.
  - intros ->. f_equal. eapply NoDup_lookup; eauto.
Qed.

(** C1. For a pair count [pairs ≥ 0] and any run of the random source,
    [generateDeck] returns [2 * min(pairs, 28)] cards, hence exactly
    [2 * pairs] cards up to the pool size of 28 and the clamped 56 cards
    above it; every pair identity of the deck is on exactly two cards, two
    cards of one pair show the same symbol, and two cards showing the same
    symbol belong to one pair. *)
Theorem generateDeck_pairs (pairs : Z) (g : Rand.gen) :
  0 ≤ pairs →
  let d := (generateDeck pairs g).1 in
  Z.of_nat (length d) = 2 * Z.min pairs (Z.of_nat (length EMOJI_POOL)) ∧
  (pairs ≤ Z.of_nat (length EMOJI_POOL) → Z.of_nat (length d) = 2 * pairs) ∧
  (Z.of_nat (length EMOJI_POOL) < pairs →
     length d = (2 * length EMOJI_POOL)%nat) ∧
  (∀ c, c ∈ d → count_pair (pairId c) d = 2%nat) ∧
  (∀ c1 c2, c1 ∈ d → c2 ∈ d → pairId c1 = pairId c2 → content c1 = content c2) ∧
  (∀ c1 c2, c1 ∈ d → c2 ∈ d → content c1 = content c2 → pairId c1 = pairId c2).
Proof.
  intros Hp d.
  destruct (generateDeck_shape pairs g) as (pool & Hnd & _ & Hlen & Hd).
  fold d in Hd. specialize (Hlen Hp).
  assert (length d = (2 * length pool)%nat) as Hl.
  { by rewrite Hd, cards_from_length. }
  rewrite EMOJI_POOL_length. split_and!.
  - lia.
  - lia.
  - lia.
  - intros c Hc. rewrite Hd in Hc |- *.
    apply elem_of_cards_from in Hc as (k & e & Hk & Hc).
    apply pair_cards_pairId in Hc as (-> & _).
    apply count_pair_cards_from. by eapply lookup_lt_Some.
  - intros c1 c2 H1 H2. rewrite Hd in H1, H2.
    by apply (cards_from_pairId_content pool).
  - intros c1 c2 H1 H2. rewrite Hd in H1, H2.
    by apply (cards_from_pairId_content pool).
Qed.

Lemma generateDeck_pairs_witness :
  0 ≤ 3 ∧
  let d := (generateDeck 3 (Rand.const 0)).1 in
  Z.of_nat (length d) = 2 * Z.min 3 (Z.of_nat (length EMOJI_POOL)) ∧
  (3 ≤ Z.of_nat (length EMOJI_POOL) → Z.of_nat (length d) = 2 * 3) ∧
  (Z.of_nat (length EMOJI_POOL) < 3 →
     length d = (2 * length EMOJI_POOL)%nat) ∧
  (∀ c, c ∈ d → count_pair (pairId c) d = 2%nat) ∧
  (∀ c1 c2, c1 ∈ d → c2 ∈ d → pairId c1 = pairId c2 → content c1 = content c2) ∧
  (∀ c1 c2, c1 ∈ d → c2 ∈ d → content c1 = content c2 → pairId c1 = pairId c2).
Proof. split; [lia | apply (generateDeck_pairs 3 (Rand.const 0)); lia]. Defined.

(** A negative count is no pair count: [slice(0, pairs)] then drops
    entries from the end of the pool. *)
Lemma generateDeck_negative (pairs : Z) (g : Rand.gen) :
  -28 ≤ pairs < 0 →
  Z.of_nat (length (generateDeck pairs g).1) = 2 * (28 + pairs).
Proof.
  intros Hp. unfold generateDeck.
  pose proof (shuffle_Permutation EMOJI_POOL g) as Hperm.
  destruct (shuffle EMOJI_POOL g) as [shuffled g1]. simpl in Hperm.
  rewrite shuffle_Permutation, flatMap_cards_from, cards_from_length.
  unfold slice0. rewrite length_take, Hperm, EMOJI_POOL_length.
  destruct (Z.ltb_spec pairs 0); lia.
Qed.

End DeckFacts.

(** ** Star rating: proofs *)
Module StarsFacts.
Import Stars.

Lemma agree_upto_400_28 : agree_upto 400 28 = true.
Proof. vm_compute. reflexivity. Qed.

Lemma agree_upto_spec mmax pmax (M P : nat) :
  agree_upto mmax pmax = true → (M ≤ mmax)%nat → (P < pmax)%nat →
  stars (number_of (Z.of_nat M)) (number_of (Z.of_nat (S P)))
    = stars_exact (Z.of_nat M) (Z.of_nat (S P)).
Proof.
  unfold agree_upto. intros H HM HP.
  rewrite forallb_forall in H.
  assert (In M (seq 0 (S mmax))) as HinM by (apply in_seq; lia).
  specialize (H _ HinM). rewrite forallb_forall in H.
  assert (In P (seq 0 pmax)) as HinP by (apply in_seq; lia).
  specialize (H _ HinP). by apply Z.eqb_eq.
Qed.

(** On the counts a game can show (at most 28 pairs, here up to 400 moves)
    the floating-point rating is the rating over exact rationals. *)
Lemma stars_exact_on_counts (M P : Z) :
  0 ≤ M ≤ 400 → 1 ≤ P ≤ 28 →
  stars (number_of M) (number_of P) = stars_exact M P.
Proof.
  intros HM HP.
  replace M with (Z.of_nat (Z.to_nat M)) by lia.
  replace P with (Z.of_nat (S (Z.to_nat (P - 1)))) by lia.
  apply (agree_upto_spec 400 28); [apply agree_upto_400_28|lia|lia].
Qed.

(** C2. The rating is a function of the move count and the pair count
    alone: it is 3 when the move count is 0, whatever the pair count;
    otherwise, with the quotient [moves / pairs] of the two doubles, it is 3
    when the quotient is at most 1.2, 2 when it is at most 2, and 1 otherwise.
    On the counts (10,10), (15,10) and (25,10) it is 3, 2 and 1, and on all
    counts up to 400 moves and 28 pairs it is the rating computed with exact
    fractions. *)
#[warnings="-inexact-float"]
Theorem stars_rating :
  (∀ pairs, stars 0 pairs = 3) ∧
  (∀ P, stars (number_of 0) (number_of P) = 3) ∧
  (∀ moves pairs,
     stars moves pairs =
       if (moves =? 0)%float then 3
       else if (moves / pairs <=? 1.2)%float then 3
       else if (moves / pairs <=? 2)%float then 2
       else 1) ∧
  stars (number_of 10) (number_of 10) = 3 ∧
  stars (number_of 15) (number_of 10) = 2 ∧
  stars (number_of 25) (number_of 10) = 1 ∧
  (∀ M P, 0 ≤ M ≤ 400 → 1 ≤ P ≤ 28 →
     stars (number_of M) (number_of P) =
       if M =? 0 then 3 else if 5 * M <=? 6 * P then 3
       else if M <=? 2 * P then 2 else 1).
Proof.
  split_and!.
  - intros pairs. reflexivity.
  - intros P. reflexivity.
  - intros moves pairs. reflexivity.
  - vm_compute. reflexivity.
  - vm_compute. reflexivity.
  - vm_compute. reflexivity.
  - intros M P HM HP. by rewrite stars_exact_on_counts.
Qed.

End StarsFacts.

(** ** The game: flips *)
Module FlipFacts.
Import Deck Game.

(** The paths through [handleFlip]. *)
Ltac flip_cases cardId a :=
  unfold handleFlip;
  destruct (locked a) eqn:Hlocked; [|
  destruct (find_card cardId (deck a)) as [card|] eqn:Hcard; [
  destruct (matched card) eqn:Hmatched; [|
  destruct (bool_decide (cardId ∈ flipped a)) eqn:Hin; [|
  destruct (flipped a) as [|firstId [|second rest]] eqn:Hflipped; [|
  destruct (find_card firstId (deck a)) as [firstCard|] eqn:Hfirst; [
  destruct (bool_decide (pairId firstCard = pairId card)) eqn:Hpair |] |]]] |]].

(** What a flip never touches. *)
Lemma handleFlip_keeps cardId a :
  let a' := (handleFlip cardId a).1 in
  deck a' = deck a ∧ matches a' = matches a ∧ seconds a' = seconds a ∧
  pairs a' = pairs a ∧ difficulty a' = difficulty a ∧ name a' = name a ∧
  leaderboard a' = leaderboard a.
Proof.
  flip_cases cardId a; simpl; destruct (running a); simpl; done.
Qed.

(** C3, as the code has it. A flip while input is locked, or on a card that
    is already matched, leaves the whole state as it is and schedules
    nothing. A flip on the card that is already the only one face up
    schedules nothing and changes at most the running flag: it leaves the
    whole state as it is when the game is running, and sets the running
    flag when the game is not running (the input not locked, the card in
    the deck and not matched). *)
Theorem handleFlip_noop (cardId : string) (a : App) :
  (locked a = true → handleFlip cardId a = (a, None)) ∧
  (∀ card, find_card cardId (deck a) = Some card → matched card = true →
     handleFlip cardId a = (a, None)) ∧
  (flipped a = [cardId] →
     handleFlip cardId a = (a, None) ∨
     handleFlip cardId a = (set_running true a, None)) ∧
  (flipped a = [cardId] → running a = true → handleFlip cardId a = (a, None)) ∧
  (∀ card, flipped a = [cardId] → running a = false → locked a = false →
     find_card cardId (deck a) = Some card → matched card = false →
     handleFlip cardId a = (set_running true a, None)).
Proof.
  split_and!.
  - intros Hl. unfold handleFlip. by rewrite Hl.
  - intros card Hc Hm. unfold handleFlip. rewrite Hc, Hm. by destruct (locked a).
  - intros Hf. flip_cases cardId a; try (by left); simplify_eq;
      try (apply bool_decide_eq_false in Hin; destruct Hin; by left).
    destruct (running a); simpl; [by left|by right].
  - intros Hf Hr. flip_cases cardId a; try done; simplify_eq;
      try (apply bool_decide_eq_false in Hin; destruct Hin; by left).
    by rewrite Hr.
  - intros card Hf Hr Hl Hc Hm. unfold handleFlip.
    rewrite Hl, Hc, Hm, Hr, Hf. simpl.
    by rewrite bool_decide_eq_true_2 by (by left).
Qed.

(** A flip that [handleFlip] ignores leaves the world as it is. *)
Lemma step_flip_ignored cardId w :
  handleFlip cardId (app w) = (app w, None) → step w (Flip cardId) = w.
Proof.
  intros H. cbn [step]. rewrite H. simpl. rewrite app_nil_r. by destruct w.
Qed.

(** C3 as stated fails: with one card face up and the game paused, a
    second flip of that card sets the running flag. *)
Lemma handleFlip_sole_flipped_resumes :
  flipped paused_with_one_card = ["p0a"] ∧
  locked paused_with_one_card = false ∧
  running paused_with_one_card = false ∧
  running (handleFlip "p0a" paused_with_one_card).1 = true ∧
  (handleFlip "p0a" paused_with_one_card).1 ≠ paused_with_one_card.
Proof.
  assert (running paused_with_one_card = false) as Hr
    by (vm_compute; reflexivity).
  assert (running (handleFlip "p0a" paused_with_one_card).1 = true) as Hr'
    by (vm_compute; reflexivity).
  split; [vm_compute; reflexivity|].
  split; [vm_compute; reflexivity|].
  split; [exact Hr|]. split; [exact Hr'|].
  intros Heq. rewrite Heq, Hr in Hr'. discriminate Hr'.
Qed.

Lemma on_match_moves e card render w :
  moves (app (on_match e card render w)) = moves (app w).
Proof.
  unfold on_match. destruct (matches render + 1 =? pairs render); [|done].
  destruct (Leaderboard.saveScoreLocal _ _);
    destruct (saveScoreRemote _ _ _ _); done.
Qed.

Lemma fire_moves w k e : moves (app (step w (Fire k e))) = moves (app w).
Proof.
  simpl. destruct (timers w !! k) as [[card render|]|]; [|done|done].
  by rewrite on_match_moves.
Qed.


End FlipFacts.

(** ** Dates: the ISO text orders as the instant *)
Module TimeFacts.
Import Time.

Lemma InLeapYear_cases y : InLeapYear y = 0 ∨ InLeapYear y = 1.
Proof. unfold InLeapYear. repeat case_match; auto. Qed.

Lemma DayFromYear_step y : DayFromYear (y + 1) = DayFromYear y + 365 + InLeapYear y.
Proof.
  unfold DayFromYear, InLeapYear.
  destruct (Z.eqb_spec (y mod 4) 0); simpl;
  [destruct (Z.eqb_spec (y mod 100) 0); simpl;
   [destruct (Z.eqb_spec (y mod 400) 0); simpl|]|].
  all: (Z.div_mod_to_equations; lia).
Qed.

Lemma DayFromYear_mono y y' : y ≤ y' → DayFromYear y ≤ DayFromYear y'.
Proof.
  intros H. unfold DayFromYear. (Z.div_mod_to_equations; lia).
Qed.

Lemma DayFromYear_lt y y' : y < y' → DayFromYear y < DayFromYear y'.
Proof.
  intros H. pose proof (DayFromYear_mono (y + 1) y' ltac:(lia)).
  rewrite DayFromYear_step in H0. pose proof (InLeapYear_cases y). lia.
Qed.

Lemma YearFromDay_spec day :
  DayFromYear (YearFromDay day) ≤ day < DayFromYear (YearFromDay day + 1).
Proof.
  unfold YearFromDay.
  set (y := 1970 + 400 * day / 146097).
  assert (DayFromYear (y - 1) ≤ day < DayFromYear (y + 2)) as Hest.
  { unfold y, DayFromYear. (Z.div_mod_to_equations; lia). }
  destruct (Z.ltb_spec day (DayFromYear y)).
  - replace (y - 1 + 1) with y by lia. lia.
  - destruct (Z.leb_spec (DayFromYear (y + 1)) day).
    + replace (y + 1 + 1) with (y + 2) by lia. lia.
    + lia.
Qed.

Lemma lexi_radix r a a' b b' :
  0 ≤ b < r → 0 ≤ b' < r →
  lexi (a ?= a') (b ?= b') = (a * r + b ?= a' * r + b').
Proof.
  intros Hb Hb'. unfold lexi.
  destruct (Z.compare_spec a a') as [->|H|H].
  - destruct (Z.compare_spec b b'); symmetry;
      [apply Z.compare_eq_iff|apply Z.compare_lt_iff|apply Z.compare_gt_iff]; lia.
  - symmetry. apply Z.compare_lt_iff. nia.
  - symmetry. apply Z.compare_gt_iff. nia.
Qed.

Lemma ascii_compare_refl c : Ascii.compare c c = Eq.
Proof. unfold Ascii.compare. apply N.compare_refl. Qed.

Lemma compare_cons c s1 s2 :
  String.compare (String c s1) (String c s2) = String.compare s1 s2.
Proof. simpl. by rewrite ascii_compare_refl. Qed.

Lemma compare_app a1 a2 b1 b2 :
  String.length a1 = String.length a2 →
  String.compare (a1 +:+ b1) (a2 +:+ b2)
  = lexi (String.compare a1 a2) (String.compare b1 b2).
Proof.
  revert a2. induction a1 as [|c1 a1 IH]; intros [|c2 a2] Hlen; simplify_eq/=.
  - done.
  - destruct (Ascii.compare c1 c2); [by apply IH|done|done].
Qed.

Lemma length_append s1 s2 :
  String.length (s1 +:+ s2) = (String.length s1 + String.length s2)%nat.
Proof. induction s1 as [|c s1 IH]; simpl; [done|]. by rewrite IH. Qed.

Lemma pad_length w n : String.length (pad w n) = w.
Proof.
  revert n. induction w as [|w IH]; intros n; simpl; [done|].
  rewrite length_append, IH. simpl. lia.
Qed.

Lemma digit_compare x y :
  0 ≤ x < 10 → 0 ≤ y < 10 → Ascii.compare (digit x) (digit y) = (x ?= y).
Proof.
  intros Hx Hy.
  assert (∃ i : nat, (i < 10)%nat ∧ x = Z.of_nat i) as (i & Hi & ->)
    by (exists (Z.to_nat x); lia).
  assert (∃ j : nat, (j < 10)%nat ∧ y = Z.of_nat j) as (j & Hj & ->)
    by (exists (Z.to_nat y); lia).
  do 10 (destruct i as [|i]; [do 10 (destruct j as [|j]; [reflexivity|]); lia|]).
  lia.
Qed.

Lemma pad_compare w a b :
  0 ≤ a < 10 ^ Z.of_nat w → 0 ≤ b < 10 ^ Z.of_nat w →
  String.compare (pad w a) (pad w b) = (a ?= b).
Proof.
  revert a b. induction w as [|w IH]; intros a b Ha Hb.
  - simpl in *. assert (a = 0) as -> by lia. assert (b = 0) as -> by lia. done.
  - rewrite Nat2Z.inj_succ, Z.pow_succ_r in Ha, Hb by lia.
    cbn [pad]. rewrite compare_app by (by rewrite !pad_length).
    rewrite IH by (Z.div_mod_to_equations; lia).
    cbn [String.compare]. 
    rewrite digit_compare by (apply Z.mod_pos_bound; lia).
    replace (match a mod 10 ?= b mod 10 with Eq => Eq | Lt => Lt | Gt => Gt end)
      with (a mod 10 ?= b mod 10) by (by destruct (a mod 10 ?= b mod 10)).
    rewrite (lexi_radix 10) by (apply Z.mod_pos_bound; lia).
    f_equal; Z.div_mod_to_equations; lia.
Qed.

Lemma lexi_Eq_r c : lexi c Eq = c.
Proof. by destruct c. Qed.

Lemma YearFromDay_mono d1 d2 : d1 ≤ d2 → YearFromDay d1 ≤ YearFromDay d2.
Proof.
  intros H. pose proof (YearFromDay_spec d1) as H1. pose proof (YearFromDay_spec d2) as H2.
  destruct (Z.le_gt_cases (YearFromDay d1) (YearFromDay d2)) as [|Hgt]; [done|].
  pose proof (DayFromYear_mono (YearFromDay d2 + 1) (YearFromDay d1) ltac:(lia)). lia.
Qed.

Lemma day_within_year day :
  0 ≤ day - DayFromYear (YearFromDay day) < 365 + InLeapYear (YearFromDay day).
Proof.
  pose proof (YearFromDay_spec day) as H. rewrite DayFromYear_step in H. lia.
Qed.

Ltac month_cases :=
  unfold MonthFromDay, DateFromDay;
  repeat match goal with
  | |- context [?a <? ?b] => destruct (Z.ltb_spec a b)
  end.

Lemma month_date_bounds d L :
  0 ≤ L ≤ 1 → 0 ≤ d < 365 + L →
  0 ≤ MonthFromDay d L ≤ 11 ∧ 1 ≤ DateFromDay d L ≤ 31.
Proof. intros HL Hd. month_cases; lia. Qed.

(** Month and date, as one number, grow with the day of the year. *)
Lemma month_date_lt d1 d2 L :
  0 ≤ L ≤ 1 → 0 ≤ d1 → d1 < d2 → d2 < 365 + L →
  (MonthFromDay d1 L + 1) * 32 + DateFromDay d1 L
  < (MonthFromDay d2 L + 1) * 32 + DateFromDay d2 L.
Proof. intros HL H1 H12 H2. (month_cases; lia). Qed.

Lemma DateKey_lt d1 d2 : d1 < d2 → DateKey d1 < DateKey d2.
Proof.
  intros H. unfold DateKey.
  pose proof (YearFromDay_mono d1 d2 ltac:(lia)) as Hy.
  pose proof (day_within_year d1) as H1. pose proof (day_within_year d2) as H2.
  pose proof (InLeapYear_cases (YearFromDay d1)) as HL1.
  pose proof (InLeapYear_cases (YearFromDay d2)) as HL2.
  destruct (Z.eq_dec (YearFromDay d1) (YearFromDay d2)) as [Heq|Hne].
  - rewrite <-Heq in *.
    pose proof (month_date_lt (d1 - DayFromYear (YearFromDay d1))
                  (d2 - DayFromYear (YearFromDay d1)) (InLeapYear (YearFromDay d1))).
    lia.
  - pose proof (month_date_bounds (d1 - DayFromYear (YearFromDay d1))
                  (InLeapYear (YearFromDay d1)) ltac:(lia) ltac:(lia)).
    pose proof (month_date_bounds (d2 - DayFromYear (YearFromDay d2))
                  (InLeapYear (YearFromDay d2)) ltac:(lia) ltac:(lia)).
    nia.
Qed.

Lemma DateKey_compare d1 d2 : (DateKey d1 ?= DateKey d2) = (d1 ?= d2).
Proof.
  destruct (Z.compare_spec d1 d2) as [->|H|H].
  - apply Z.compare_refl.
  - by apply Z.compare_lt_iff, DateKey_lt.
  - by apply Z.compare_gt_iff, DateKey_lt.
Qed.

Lemma year_range t :
  in_four_digit_years t → 0 ≤ YearFromDay (Day t) ≤ 9999.
Proof.
  unfold in_four_digit_years, Day, msPerDay. intros Ht.
  assert (DayFromYear 0 ≤ t / 86400000 < DayFromYear 10000) as Hd.
  { change (DayFromYear 0) with (-719528).
    change (DayFromYear 10000) with 2932897. Z.div_mod_to_equations; lia. }
  pose proof (YearFromDay_spec (t / 86400000)) as Hs.
  split.
  - destruct (Z.le_gt_cases 0 (YearFromDay (t / 86400000))) as [|Hlt]; [done|].
    pose proof (DayFromYear_mono (YearFromDay (t / 86400000) + 1) 0 ltac:(lia)). lia.
  - destruct (Z.le_gt_cases (YearFromDay (t / 86400000)) 9999) as [|Hgt]; [done|].
    pose proof (DayFromYear_mono 10000 (YearFromDay (t / 86400000)) ltac:(lia)). lia.
Qed.

(** The text of an instant of the years 0000 to 9999. *)
Lemma toISOString_four_digits t :
  in_four_digit_years t →
  let day := Day t in
  let tw := TimeWithinDay t in
  let y := YearFromDay day in
  let d := day - DayFromYear y in
  let L := InLeapYear y in
  toISOString t =
    pad 4 y +:+ "-" +:+ pad 2 (MonthFromDay d L + 1) +:+ "-" +:+ pad 2 (DateFromDay d L)
    +:+ "T" +:+ pad 2 (tw / 3600000) +:+ ":" +:+ pad 2 (tw / 60000 mod 60)
    +:+ ":" +:+ pad 2 (tw / 1000 mod 60) +:+ "." +:+ pad 3 (tw mod 1000) +:+ "Z".
Proof.
  intros Ht. pose proof (year_range t Ht) as Hy. cbv zeta.
  unfold toISOString, year_text.
  destruct (Z.leb_spec 0 (YearFromDay (Day t))); [|lia].
  destruct (Z.leb_spec (YearFromDay (Day t)) 9999); [|lia]. done.
Qed.

Lemma compare_pad_app w a b r1 r2 :
  0 ≤ a < 10 ^ Z.of_nat w → 0 ≤ b < 10 ^ Z.of_nat w →
  String.compare (pad w a +:+ r1) (pad w b +:+ r2)
  = lexi (a ?= b) (String.compare r1 r2).
Proof.
  intros Ha Hb. rewrite compare_app by (by rewrite !pad_length).
  by rewrite pad_compare.
Qed.

Lemma compare_sep c r1 r2 :
  String.compare (String c EmptyString +:+ r1) (String c EmptyString +:+ r2)
  = String.compare r1 r2.
Proof. apply compare_cons. Qed.

Lemma toISOString_compare t1 t2 :
  in_four_digit_years t1 → in_four_digit_years t2 →
  String.compare (toISOString t1) (toISOString t2) = (t1 ?= t2).
Proof.
  intros H1 H2.
  rewrite (toISOString_four_digits t1 H1), (toISOString_four_digits t2 H2).
  pose proof (year_range t1 H1) as Hy1. pose proof (year_range t2 H2) as Hy2.
  cbv zeta.
  set (day1 := Day t1). set (day2 := Day t2).
  set (tw1 := TimeWithinDay t1). set (tw2 := TimeWithinDay t2).
  assert (0 ≤ tw1 < 86400000) as Htw1 by (apply Z.mod_pos_bound; done).
  assert (0 ≤ tw2 < 86400000) as Htw2 by (apply Z.mod_pos_bound; done).
  fold day1 in Hy1. fold day2 in Hy2.
  set (y1 := YearFromDay day1) in *. set (y2 := YearFromDay day2) in *.
  pose proof (day_within_year day1) as Hd1. pose proof (day_within_year day2) as Hd2.
  fold y1 in Hd1. fold y2 in Hd2.
  pose proof (InLeapYear_cases y1) as HL1. pose proof (InLeapYear_cases y2) as HL2.
  set (d1 := day1 - DayFromYear y1) in *. set (d2 := day2 - DayFromYear y2) in *.
  set (L1 := InLeapYear y1) in *. set (L2 := InLeapYear y2) in *.
  pose proof (month_date_bounds d1 L1 ltac:(lia) ltac:(lia)) as Hm1.
  pose proof (month_date_bounds d2 L2 ltac:(lia) ltac:(lia)) as Hm2.
  rewrite compare_pad_app by (simpl; lia). rewrite compare_sep.
  rewrite compare_pad_app by (simpl; lia). rewrite compare_sep.
  rewrite compare_pad_app by (simpl; lia). rewrite compare_sep.
  rewrite compare_pad_app by (simpl; Z.div_mod_to_equations; lia). rewrite compare_sep.
  rewrite compare_pad_app by (simpl; Z.div_mod_to_equations; lia). rewrite compare_sep.
  rewrite compare_pad_app by (simpl; Z.div_mod_to_equations; lia). rewrite compare_sep.
  rewrite compare_pad_app by (simpl; Z.div_mod_to_equations; lia).
  change (String.compare "Z" "Z") with Eq. rewrite lexi_Eq_r.
  rewrite (lexi_radix 1000) by (apply Z.mod_pos_bound; lia).
  rewrite (lexi_radix 60000) by (Z.div_mod_to_equations; lia).
  rewrite (lexi_radix 3600000) by (Z.div_mod_to_equations; lia).
  replace (tw1 / 3600000 * 3600000
           + (tw1 / 60000 mod 60 * 60000 + (tw1 / 1000 mod 60 * 1000 + tw1 mod 1000)))
    with tw1 by (Z.div_mod_to_equations; lia).
  replace (tw2 / 3600000 * 3600000
           + (tw2 / 60000 mod 60 * 60000 + (tw2 / 1000 mod 60 * 1000 + tw2 mod 1000)))
    with tw2 by (Z.div_mod_to_equations; lia).
  rewrite (lexi_radix 86400000) by lia.
  rewrite (lexi_radix (32 * 86400000)) by lia.
  rewrite (lexi_radix (13 * (32 * 86400000))) by lia.
  assert (t1 = day1 * 86400000 + tw1) as Ht1
    by (unfold day1, tw1, Day, TimeWithinDay, msPerDay; Z.div_mod_to_equations; lia).
  assert (t2 = day2 * 86400000 + tw2) as Ht2
    by (unfold day2, tw2, Day, TimeWithinDay, msPerDay; Z.div_mod_to_equations; lia).
  assert (∀ day tw,
            let y := YearFromDay day in
            let d := day - DayFromYear y in
            let L := InLeapYear y in
            y * (13 * (32 * 86400000))
            + ((MonthFromDay d L + 1) * (32 * 86400000) + (DateFromDay d L * 86400000 + tw))
            = DateKey day * 86400000 + tw) as HK.
  { intros day tw. unfold DateKey. cbv zeta. lia. }
  pose proof (HK day1 tw1) as K1. pose proof (HK day2 tw2) as K2. cbv zeta in K1, K2.
  fold y1 d1 L1 in K1. fold y2 d2 L2 in K2.
  rewrite K1, K2, Ht1, Ht2.
  rewrite <-!(lexi_radix 86400000) by lia.
  by rewrite DateKey_compare.
Qed.

(** For instants of the years 0000 to 9999 the byte-wise order of the ISO
    texts is the order of the instants. *)
Lemma toISOString_leb t1 t2 :
  in_four_digit_years t1 → in_four_digit_years t2 →
  String.leb (toISOString t1) (toISOString t2) = true ↔ t1 ≤ t2.
Proof.
  intros H1 H2. unfold String.leb. rewrite toISOString_compare by done.
  destruct (Z.compare_spec t1 t2); split; (done || lia).
Qed.

(** The query time 2023-11-14T22:13:20Z and the instant 24 hours before. *)
Lemma toISOString_leb_witness :
  String.leb (toISOString (1700000000000 - 86400000)) (toISOString 1700000000000) = true
  ↔ 1700000000000 - 86400000 ≤ 1700000000000.
Proof.
  apply (toISOString_leb (1700000000000 - 86400000) 1700000000000);
    unfold in_four_digit_years; lia.
Defined.

End TimeFacts.

(** ** The leaderboard service: submissions *)
Module PostFacts.
Import Server.

Lemma num_lt_Fin a b : num_lt (Fin a) (Fin b) = true ↔ (a < b)%Q.
Proof.
  simpl. rewrite negb_true_iff, <-not_true_iff_false, Qle_bool_iff.
  split; [apply Qnot_le_lt|apply Qlt_not_le].
Qed.

Lemma outside_upper hi v : outside 0 hi v →
  ∃ n, v = VNum n ∧ (num_lt n (Fin 0) = true ∨ num_lt (Fin hi) n = true).
Proof.
  destruct v as [| | |[q|[]]| |]; simpl; try done.
  - intros [H|H]; exists (Fin q); (split; [done|]);
      [left|right]; by apply num_lt_Fin.
  - intros _. exists (Inf true). by split; [|left].
  - intros _. exists (Inf false). by split; [|right].
Qed.

Lemma missing_spec (s : option string) :
  missing s = true ↔ s = None ∨ s = Some EmptyString.
Proof.
  destruct s as [t|]; simpl.
  - rewrite bool_decide_eq_true. split; [intros ->; by right|].
    by intros [|[= ->]].
  - split; [by left|done].
Qed.

(** C6. A submission whose name is missing (absent, null or empty), whose
    seconds or moves is not a number, whose seconds lies outside
    [0, 86400] or whose moves lies outside [0, 10000], or whose difficulty
    is missing, is answered with status 400 and the table stays as it
    was. *)
Theorem post_scores_rejects (now : Z) (body : payload) (table : list Row) :
  p_name body = None ∨ p_name body = Some EmptyString
  ∨ is_number (p_seconds body) = false ∨ is_number (p_moves body) = false
  ∨ outside 0 86400 (p_seconds body) ∨ outside 0 10000 (p_moves body)
  ∨ p_difficulty body = None ∨ p_difficulty body = Some EmptyString →
  ∃ error, post_scores now body table = (Status400 error, table).
Proof.
  intros H. unfold post_scores.
  destruct (missing (p_name body)) eqn:Hn; [by eexists|].
  destruct (is_number (p_seconds body)) eqn:Hs; [|by eexists].
  destruct (is_number (p_moves body)) eqn:Hm; [|by eexists].
  destruct (missing (p_difficulty body)) eqn:Hd; [by eexists|]. cbn [orb negb].
  destruct (p_name body) as [name|] eqn:En; [|by eexists].
  destruct (p_seconds body) as [| | |seconds| |] eqn:Es; try by eexists.
  destruct (p_moves body) as [| | |moves| |] eqn:Em; try by eexists.
  destruct (p_difficulty body) as [difficulty|] eqn:Ed; [|by eexists].
  destruct H as [H|[H|[H|[H|[H|[H|[H|H]]]]]]]; try done.
  - rewrite <-En in H. rewrite <-En in Hn.
    assert (missing (p_name body) = true) by (apply missing_spec; by right).
    congruence.
  - apply outside_upper in H as (n & [= <-] & [H|H]); rewrite H;
      rewrite ?orb_true_r; cbn [orb]; by eexists.
  - apply outside_upper in H as (n & [= <-] & [H|H]); rewrite H;
      rewrite ?orb_true_r; cbn [orb]; by eexists.
  - assert (missing (Some difficulty) = true) by (apply missing_spec; by right).
    congruence.
Qed.

(** The submission [{name: "Ann", seconds: -1, moves: 10, difficulty: "easy"}]
    to a table of two rows. *)
Lemma post_scores_rejects_witness :
  ∃ error,
    post_scores 1700000000000
      (Payload (Some "Ann") (VNum (Fin (-1))) (VNum (Fin 10)) (Some "easy")) two_rows
    = (Status400 error, two_rows).
Proof.
  apply (post_scores_rejects 1700000000000
           (Payload (Some "Ann") (VNum (Fin (-1))) (VNum (Fin 10)) (Some "easy")) two_rows).
  do 4 right. left. simpl. left. reflexivity.
Defined.

(** A valid submission is stored: one row more, stamped with the time of
    the service. *)
Lemma post_scores_accepts (now : Z) (body : payload) (table : list Row) :
  valid body →
  ∃ r, post_scores now body table = (Json r, table ++ [r]) ∧
       created_at r = Time.toISOString now ∧ id r = next_id table ∧
       p_name body = Some (name r) ∧ p_difficulty body = Some (difficulty r) ∧
       p_seconds body = VNum (Fin (seconds r)) ∧ p_moves body = VNum (Fin (moves r)).
Proof.
  intros ((n & Hn & Hn') & (sec & Hs & Hs1 & Hs2) & (m & Hm & Hm1 & Hm2) & (d & Hd & Hd')).
  unfold post_scores. rewrite Hn, Hs, Hm, Hd. simpl.
  rewrite !bool_decide_eq_false_2 by done. simpl.
  rewrite !(proj2 (Qle_bool_iff _ _)) by done. simpl.
  eexists. split; [reflexivity|]. simpl. done.
Qed.

(** Whatever the answer, the table only ever grows at its end. *)
Lemma post_scores_table now body table :
  (post_scores now body table).2 = table ∨
  ∃ r, (post_scores now body table).2 = table ++ [r].
Proof.
  unfold post_scores.
  repeat (case_match; simpl; try (by left); try (right; by eexists)).
Qed.

End PostFacts.

(** ** The leaderboard service: queries *)
Module QueryFacts.
Import Server.

Lemma before_spec r1 r2 : before r1 r2 = true ↔ row_le r1 r2.
Proof.
  unfold before, row_le.
  rewrite orb_true_iff, andb_true_iff, negb_true_iff, <-not_true_iff_false.
  rewrite Qeq_bool_iff, !Qle_bool_iff. split.
  - intros [H|H]; [left; by apply Qnot_le_lt|by right].
  - intros [H|H]; [left; by apply Qlt_not_le|by right].
Qed.

Lemma before_false r1 r2 : before r1 r2 = false → row_le r2 r1.
Proof.
  intros H. apply not_true_iff_false in H. rewrite before_spec in H.
  unfold row_le in *.
  destruct (Qlt_le_dec (seconds r2) (seconds r1)) as [|Hle]; [by left|].
  destruct (Qlt_le_dec (seconds r1) (seconds r2)) as [|Hge]; [destruct H; by left|].
  right. split; [by apply Qle_antisym|].
  destruct (Qlt_le_dec (moves r1) (moves r2)) as [Hm|]; [|done].
  destruct H. right. split; [by apply Qle_antisym|]. by apply Qlt_le_weak.
Qed.

Lemma row_le_trans r1 r2 r3 : row_le r1 r2 → row_le r2 r3 → row_le r1 r3.
Proof. unfold row_le. intros [H1|[H1 H1']] [H2|[H2 H2']]; lra. Qed.

Lemma insert_row_Permutation r l : insert_row r l ≡ₚ r :: l.
Proof.
  induction l as [|r' l IH]; simpl; [done|].
  destruct (before r r'); [done|]. rewrite IH. apply Permutation_swap.
Qed.

Lemma order_by_Permutation l : order_by l ≡ₚ l.
Proof.
  induction l as [|r l IH]; simpl; [done|].
  by rewrite insert_row_Permutation, IH.
Qed.

Lemma insert_row_sorted r l :
  StronglySorted row_le l → StronglySorted row_le (insert_row r l).
Proof.
  induction 1 as [|r' l Hs IH Hall]; simpl.
  - repeat constructor.
  - destruct (before r r') eqn:Hb.
    + apply before_spec in Hb. constructor; [by constructor|].
      constructor; [done|]. eapply Forall_impl; [exact Hall|].
      intros x Hx. by eapply row_le_trans.
    + apply before_false in Hb. constructor; [done|].
      rewrite insert_row_Permutation. by constructor.
Qed.

Lemma order_by_sorted l : StronglySorted row_le (order_by l).
Proof.
  induction l as [|r l IH]; simpl; [constructor|]. by apply insert_row_sorted.
Qed.

Lemma StronglySorted_take {A} (R : A → A → Prop) n l :
  StronglySorted R l → StronglySorted R (take n l).
Proof.
  intros H. revert n. induction H as [|x l Hs IH Hall]; intros [|n]; simpl;
    try constructor; [apply IH|].
  eapply Forall_forall. intros y Hy. rewrite Forall_forall in Hall.
  apply Hall. by eapply subseteq_take.
Qed.

Lemma sql_limit_sorted n l :
  StronglySorted row_le l → StronglySorted row_le (sql_limit n l).
Proof.
  unfold sql_limit. destruct (n <? 0); [done|]. apply StronglySorted_take.
Qed.

Lemma sql_limit_subseteq n l : sql_limit n l ⊆ l.
Proof.
  unfold sql_limit. destruct (n <? 0); [done|]. apply subseteq_take.
Qed.

Lemma columns_sorted l :
  StronglySorted row_le l → StronglySorted entry_le (map columns l).
Proof.
  induction 1 as [|r l Hs IH Hall]; simpl; constructor; [done|].
  apply Forall_map. eapply Forall_impl; [exact Hall|]. by intros x Hx.
Qed.

(** The rows the WHERE clause keeps, in the order of the ORDER BY clause. *)
Lemma elem_of_matching difficulty since table r :
  r ∈ order_by (List.filter (selected difficulty since) table) ↔
  r ∈ table ∧ selected difficulty since r = true.
Proof.
  rewrite order_by_Permutation, !list_elem_of_In. apply filter_In.
Qed.

Lemma selected_spec difficulty since r :
  selected difficulty since r = true ↔
  (∀ d, difficulty = Some d → Server.difficulty r = d) ∧
  String.leb since (created_at r) = true.
Proof.
  unfold selected. rewrite andb_true_iff. destruct difficulty as [d|].
  - rewrite bool_decide_eq_true. split.
    + intros [-> ?]. split; [by intros ? [= ->]|done].
    + intros [H ?]. split; [by apply H|done].
  - split; [by intros [_ ?]|by intros [_ ?]].
Qed.

Lemma sql_limit_length n l :
  0 ≤ n → Z.of_nat (length (sql_limit n l)) ≤ n.
Proof.
  intros Hn. unfold sql_limit. destruct (Z.ltb_spec n 0); [lia|].
  rewrite length_take. lia.
Qed.

Lemma difficulty_of_spec q d :
  difficulty_of q = Some d ↔ q_difficulty q = Some d ∧ d ≠ EmptyString.
Proof.
  unfold difficulty_of. destruct (q_difficulty q) as [d'|].
  - destruct (bool_decide_reflect (d' = EmptyString)) as [->|Hne]; split.
    + done.
    + by intros [[= <-] ?].
    + by intros [= <-].
    + by intros [[= <-] ?].
  - split; [done|by intros [? _]].
Qed.

Lemma limit_of_absent q : q_limit q = None → limit_of q = 20.
Proof. unfold limit_of. by intros ->. Qed.

Lemma get_leaderboard_length now q table :
  length (get_leaderboard now q table) =
    if limit_of q <? 0 then length (matching now q table)
    else (Z.to_nat (limit_of q) `min` length (matching now q table))%nat.
Proof.
  unfold get_leaderboard, sql_limit, matching. rewrite length_map.
  destruct (limit_of q <? 0).
  - by rewrite order_by_Permutation.
  - by rewrite length_take, order_by_Permutation.
Qed.

(** For a row stamped by the service, the WHERE clause compares instants:
    the row is kept when it was created no earlier than 24 hours before the
    query. *)
Lemma since_leb now r t :
  created_at r = Time.toISOString t →
  Time.in_four_digit_years t → Time.in_four_digit_years (now - 86400000) →
  String.leb (since now) (created_at r) = true ↔ now - 86400000 ≤ t.
Proof.
  intros -> Ht Hnow. unfold since, String.leb.
  change (24 * 60 * 60 * 1000) with 86400000.
  rewrite TimeFacts.toISOString_compare by done.
  destruct (Z.compare_spec (now - 86400000) t); split; (done || lia).
Qed.


(** A row stamped later than the query time is returned as well: the WHERE
    clause has no upper bound. *)
Lemma future_row_returned :
  map e_created_at
    (get_leaderboard 1700000000000 (Query None None)
       [mkRow 1 "Ann" 30 10 "easy" (Time.toISOString 1800000000000)])
  = ["2027-01-15T08:00:00.000Z"]%string ∧
  since 1700000000000 = "2023-11-13T22:13:20.000Z"%string.
Proof. split; vm_compute; reflexivity. Qed.


(** C10. When the limit parameter is absent, is not numeric or parses to
    0, the limit in force is 20: the answer holds the first 20 matching
    rows, or all of them when they are fewer, just as when no limit is
    given. No query has the limit 0. *)
Theorem limit_defaults_to_20 (q : query) :
  q_limit q = None
  ∨ (∃ s, q_limit q = Some s ∧ (parseInt s = None ∨ parseInt s = Some 0)) →
  limit_of q = 20 ∧ limit_of q ≠ 0 ∧
  ∀ now table,
    length (get_leaderboard now q table) = (20 `min` length (matching now q table))%nat ∧
    get_leaderboard now q table = get_leaderboard now (Query (q_difficulty q) None) table.
Proof.
  intros H. assert (limit_of q = 20) as Hl.
  { unfold limit_of. destruct H as [->|(s & -> & [->| ->])]; done. }
  split_and!; [done|lia|]. intros now table. split.
  - by rewrite get_leaderboard_length, Hl.
  - unfold get_leaderboard. by rewrite Hl.
Qed.

(** The query [?limit=0]. *)
Lemma limit_defaults_to_20_witness :
  limit_of (Query None (Some "0")) = 20 ∧ limit_of (Query None (Some "0")) ≠ 0 ∧
  ∀ now table,
    length (get_leaderboard now (Query None (Some "0")) table)
      = (20 `min` length (matching now (Query None (Some "0")) table))%nat ∧
    get_leaderboard now (Query None (Some "0")) table
      = get_leaderboard now (Query None None) table.
Proof.
  apply (limit_defaults_to_20 (Query None (Some "0"))).
  right. exists "0"%string. split; [reflexivity|]. right. vm_compute. reflexivity.
Defined.

(** A query with [limit=0] is answered with rows all the same. *)
Lemma limit_zero_not_empty :
  length (get_leaderboard 1700000000000 (Query None (Some "0")) two_rows) = 2%nat.
Proof. vm_compute. reflexivity. Qed.

(** No limit parameter makes the limit in force 0. *)
Lemma limit_of_nonzero q : limit_of q ≠ 0.
Proof.
  unfold limit_of. destruct (q_limit q) as [s|]; [|done].
  destruct (parseInt s) as [n|]; [|done].
  destruct (Z.eqb_spec n 0); [done|done].
Qed.

End QueryFacts.

(** ** The local cache *)
Module CacheFacts.
Import Leaderboard.

Lemma insert_score_Permutation x l : insert_score x l ≡ₚ x :: l.
Proof.
  induction l as [|y l IH]; simpl; [done|].
  destruct (compare_scores x y <=? 0); [done|].
  rewrite IH. apply Permutation_swap.
Qed.

Lemma sort_scores_Permutation l : sort_scores l ≡ₚ l.
Proof.
  induction l as [|x l IH]; simpl; [done|].
  by rewrite insert_score_Permutation, IH.
Qed.

Global Instance count_Permutation s : Proper ((≡ₚ) ==> (=)) (count s).
Proof. intros l1 l2 H. unfold count. by rewrite H. Qed.

Lemma count_app s l1 l2 : count s (l1 ++ l2) = (count s l1 + count s l2)%nat.
Proof. unfold count. by rewrite filter_app, length_app. Qed.

Lemma count_le_length s l : (count s l ≤ length l)%nat.
Proof. apply length_filter. Qed.

Lemma count_not_elem s l : s ∉ l → count s l = 0%nat.
Proof.
  intros H. unfold count. induction l as [|x l IH]; [done|].
  rewrite filter_cons. apply not_elem_of_cons in H as [Hx Hl].
  rewrite decide_False by done. by apply IH.
Qed.

Lemma count_self s : count s [s] = 1%nat.
Proof. unfold count. rewrite filter_cons, decide_True by done. done. Qed.

(** Trimming to [n] entries loses at most the entries beyond the [n]-th. *)
Lemma count_take s n l :
  (count s (take n l) ≤ count s l ≤ count s (take n l) + (length l - n))%nat.
Proof.
  assert (count s l = (count s (take n l) + count s (drop n l))%nat) as ->.
  { by rewrite <-count_app, take_drop. }
  pose proof (count_le_length s (drop n l)) as H. rewrite length_drop in H. lia.
Qed.

Lemma saveScoreLocal_Seq s it board :
  loadLeaderboard it = Seq board →
  saveScoreLocal s it = Some (Board (take 20 (sort_scores (board ++ [s])))).
Proof. unfold saveScoreLocal. by intros ->. Qed.

Lemma saveScoreLocal_NotSeq s it v :
  loadLeaderboard it = NotSeq v → saveScoreLocal s it = None.
Proof. unfold saveScoreLocal. by intros ->. Qed.

(** One save of a score that was not in the cache. *)
Lemma count_saved s board :
  s ∉ board →
  let saved := take 20 (sort_scores (board ++ [s])) in
  (count s saved ≤ 1)%nat ∧ ((length board < 20)%nat → count s saved = 1%nat).
Proof.
  intros Hs saved.
  assert (count s (sort_scores (board ++ [s])) = 1%nat) as H1.
  { by rewrite sort_scores_Permutation, count_app, count_not_elem, count_self. }
  pose proof (count_take s 20 (sort_scores (board ++ [s]))) as H.
  fold saved in H. rewrite H1 in H.
  assert (length (sort_scores (board ++ [s])) = S (length board)) as Hlen.
  { rewrite sort_scores_Permutation, length_app. simpl. lia. }
  rewrite Hlen in H. split; lia.
Qed.

Lemma compare_scores_le a b :
  compare_scores a b ≤ 0 ↔
  seconds a < seconds b ∨ (seconds a = seconds b ∧ moves a ≤ moves b).
Proof.
  unfold compare_scores. destruct (Z.eqb_spec (seconds a - seconds b) 0); simpl; lia.
Qed.

Lemma compare_scores_trans a b c :
  compare_scores a b ≤ 0 → compare_scores b c ≤ 0 → compare_scores a c ≤ 0.
Proof. rewrite !compare_scores_le. lia. Qed.

(** Inserting [x] into a list in which [s] stands after scores that go
    before it: [x] joins them when it goes before [s], and lands behind [s]
    otherwise. *)
Lemma insert_score_around x s l1 l2 :
  Forall (λ y, compare_scores y s ≤ 0) l1 →
  ∃ l1' l2', insert_score x (l1 ++ s :: l2) = l1' ++ s :: l2' ∧
    Forall (λ y, compare_scores y s ≤ 0) l1' ∧
    l1' ≡ₚ (if decide (compare_scores x s ≤ 0) then x :: l1 else l1).
Proof.
  induction 1 as [|y l1 Hy Hl1 IH]; simpl.
  - destruct (Z.leb_spec (compare_scores x s) 0) as [Hx|Hx].
    + exists [x], l2. rewrite decide_True by done. by repeat constructor.
    + exists [], (insert_score x l2). rewrite decide_False by lia. done.
  - destruct (Z.leb_spec (compare_scores x y) 0) as [Hx|Hx].
    + assert (compare_scores x s ≤ 0) by (by eapply compare_scores_trans).
      exists (x :: y :: l1), l2. rewrite decide_True by done.
      split_and!; [done|by repeat constructor|done].
    + destruct IH as (l1' & l2' & -> & Hall & Hperm).
      exists (y :: l1'), l2'. split_and!; [done|by constructor|].
      rewrite Hperm. destruct (decide _); [apply Permutation_swap|done].
Qed.

(** The sorted board after a save: the new score [s] stands right after the
    [rank s board] scores that go before it. *)
Lemma sort_scores_new s board :
  ∃ l1 l2, sort_scores (board ++ [s]) = l1 ++ s :: l2 ∧
    Forall (λ y, compare_scores y s ≤ 0) l1 ∧
    l1 ≡ₚ filter (λ x, compare_scores x s ≤ 0) board.
Proof.
  unfold sort_scores. rewrite foldr_app. simpl.
  induction board as [|x board IH]; simpl.
  - by exists [], [].
  - destruct IH as (l1 & l2 & -> & Hall & Hperm).
    destruct (insert_score_around x s l1 l2 Hall) as (l1' & l2' & -> & Hall' & Hperm').
    exists l1', l2'. split_and!; [done|done|].
    rewrite Hperm', filter_cons. destruct (decide _); by rewrite Hperm.
Qed.

(** One save of a score that was not in the cache keeps it exactly when
    fewer than 20 cached scores go before it. *)
Lemma count_saved_rank s board :
  s ∉ board →
  count s (take 20 (sort_scores (board ++ [s])))
  = if decide (rank s board < 20)%nat then 1%nat else 0%nat.
Proof.
  intros Hs. destruct (sort_scores_new s board) as (l1 & l2 & Hsort & _ & Hperm).
  assert (count s (l1 ++ s :: l2) = 1%nat) as H1.
  { by rewrite <-Hsort, sort_scores_Permutation, count_app, count_not_elem, count_self. }
  rewrite count_app in H1. change (s :: l2) with ([s] ++ l2) in H1.
  rewrite count_app, count_self in H1.
  assert (length l1 = rank s board) as Hlen by (unfold rank; by rewrite Hperm).
  rewrite Hsort, <-Hlen. destruct (decide (length l1 < 20)%nat) as [Hlt|Hge].
  - rewrite take_app_ge by lia.
    destruct (20 - length l1)%nat as [|n] eqn:Hn; [lia|].
    rewrite firstn_cons, count_app. change (s :: take n l2) with ([s] ++ take n l2).
    rewrite count_app, count_self.
    pose proof (count_take s n l2). lia.
  - rewrite take_app_le by lia. pose proof (count_take s 20 l1). lia.
Qed.

Lemma count_filter s (P : Score → Prop) `{∀ x, Decision (P x)} l :
  P s → count s (filter P l) = count s l.
Proof.
  intros HP. unfold count. rewrite list_filter_filter. f_equal.
  apply list_filter_iff. intros x. split; [by intros [? _]|by intros ->].
Qed.

(** A second save of the same score keeps at least one copy of a score
    that the first save kept. *)
Lemma count_saved_twice s board :
  s ∉ board → (rank s board < 20)%nat →
  let saved := take 20 (sort_scores (board ++ [s])) in
  (1 ≤ count s (take 20 (sort_scores (saved ++ [s]))))%nat.
Proof.
  intros Hs Hrank saved.
  assert (count s saved = 1%nat) as H1.
  { unfold saved. by rewrite count_saved_rank, decide_True. }
  destruct (sort_scores_new s saved) as (l1 & l2 & -> & _ & Hperm).
  assert (count s l1 = 1%nat) as Hl1.
  { rewrite Hperm, count_filter; [done|]. apply compare_scores_le. lia. }
  assert (length l1 ≤ 20)%nat as Hlen.
  { rewrite Hperm. etrans; [apply length_filter|].
    unfold saved. rewrite length_take. lia. }
  rewrite take_app_ge, count_app by done. lia.
Qed.

(** The retrieval on the items that hold no JSON document, or the board the
    game wrote. *)
Lemma loadLeaderboard_sequence it :
  (it = Absent ∨ it = Garbled → loadLeaderboard it = Seq []) ∧
  (∀ l, it = Board l → loadLeaderboard it = Seq l).
Proof. split; [by intros [->| ->]|by intros l ->]. Qed.

(** Every item but the text of a JSON value that is no array is loadable. *)
Lemma loadable_spec it : loadable it ↔ ∀ v, it ≠ Other v.
Proof.
  unfold loadable. destruct it as [| |l|v]; simpl.
  - split; [done|by eexists].
  - split; [done|by eexists].
  - split; [done|by eexists].
  - split; [by intros [l ?]|]. intros H. by destruct (H v).
Qed.

(** What [saveScoreLocal] writes is a board of at most 20 scores. *)
Lemma saveScoreLocal_board s it it' :
  saveScoreLocal s it = Some it' → ∃ l, it' = Board l ∧ (length l ≤ 20)%nat.
Proof.
  unfold saveScoreLocal. destruct (loadLeaderboard it) as [board|v]; [|done].
  intros [= <-]. eexists. split; [done|]. rewrite length_take. lia.
Qed.

(** C9 fails on the code for a stored text that parses to something else
    than an array, such as [null]: the value is returned under the type
    [Score[]] though it is no sequence, and the next save of a score throws. *)
Theorem loadLeaderboard_not_a_sequence :
  loadLeaderboard (Other JNull) = NotSeq JNull ∧
  (∀ l, loadLeaderboard (Other JNull) ≠ Seq l) ∧
  (∀ s, saveScoreLocal s (Other JNull) = None).
Proof. split_and!; [done|by intros l|done]. Qed.

End CacheFacts.

(** ** The game: the match counter and the matched cards *)
Module InvariantFacts.
Import Deck Game.

Lemma marked_from_unmatched n pool :
  marked_from n pool (replicate (length pool) false) = cards_from n pool.
Proof.
  revert n. induction pool as [|e pool IH]; intros n; [done|].
  rewrite DeckFacts.cards_from_cons. simpl. by rewrite IH.
Qed.

Lemma elem_of_marked_from n pool flags c :
  c ∈ marked_from n pool flags →
  ∃ k f, flags !! k = Some f ∧ pairId c = pid (n + k) ∧ matched c = f.
Proof.
  revert n flags. induction pool as [|e pool IH]; intros n [|f flags]; simpl;
    try (by intros ?%elem_of_nil).
  rewrite !elem_of_cons. intros [->|[->|H]].
  - exists 0%nat, f. by rewrite Nat.add_0_r.
  - exists 0%nat, f. by rewrite Nat.add_0_r.
  - apply IH in H as (k & f' & Hk & Hp & Hm). exists (S k), f'.
    split_and!; [done| |done]. by replace (n + S k)%nat with (S n + k)%nat by lia.
Qed.

Lemma marked_from_flag n pool flags k f :
  length flags = length pool → flags !! k = Some f →
  ∃ c, c ∈ marked_from n pool flags ∧ matched c = f.
Proof.
  revert n flags k. induction pool as [|e pool IH]; intros n [|f' flags] k Hlen Hk;
    simplify_eq/=.
  destruct k as [|k]; simplify_eq/=.
  - eexists. split; [by left|done].
  - destruct (IH (S n) flags k ltac:(done) Hk) as (c & Hc & Hm).
    exists c. split; [|done]. by do 2 right.
Qed.

(** Marking a pair that comes before the cards at hand changes nothing. *)
Lemma mark_matched_earlier n m pool flags :
  (n < m)%nat → mark_matched (pid n) (marked_from m pool flags) = marked_from m pool flags.
Proof.
  revert m flags. induction pool as [|e pool IH]; intros m [|f flags] Hm; try done.
  cbn [marked_from mark_matched map pairId].
  rewrite !bool_decide_eq_false_2 by (intros ?%DeckFacts.pid_inj; lia).
  do 2 f_equal. apply IH. lia.
Qed.

(** Marking the cards of pair [n + k] sets the [k]-th flag. *)
Lemma mark_matched_marked_from n pool flags k :
  length flags = length pool → (k < length flags)%nat →
  mark_matched (pid (n + k)) (marked_from n pool flags)
  = marked_from n pool (<[k:=true]> flags).
Proof.
  revert n flags k. induction pool as [|e pool IH]; intros n [|f flags] k Hlen Hk;
    simplify_eq/=; try lia.
  destruct k as [|k].
  - rewrite Nat.add_0_r. rewrite !bool_decide_eq_true_2 by done. simpl.
    do 2 f_equal. apply mark_matched_earlier. lia.
  - rewrite !bool_decide_eq_false_2 by (intros ?%DeckFacts.pid_inj; lia).
    simpl. do 2 f_equal.
    replace (n + S k)%nat with (S n + k)%nat by lia.
    apply IH; [done|lia].
Qed.

Lemma count_true_insert flags k :
  flags !! k = Some false → count_true (<[k:=true]> flags) = count_true flags + 1.
Proof.
  unfold count_true. revert k. induction flags as [|f flags IH]; intros [|k] Hk;
    simplify_eq/=.
  - rewrite !filter_cons. repeat case_decide; simplify_eq/=; lia.
  - rewrite !filter_cons. specialize (IH k Hk).
    destruct (decide (f = true)); simpl; lia.
Qed.

Lemma count_true_all flags :
  count_true flags = Z.of_nat (length flags) ↔ Forall (λ f, f = true) flags.
Proof.
  unfold count_true. induction flags as [|f flags IH].
  - split; [constructor|done].
  - rewrite filter_cons. pose proof (length_filter (λ f, f = true) flags) as Hle.
    destruct (decide (f = true)) as [->|Hf]; simpl.
    + rewrite Forall_cons. split.
      * intros H. split; [done|]. apply IH. lia.
      * intros [_ H]. apply IH in H. lia.
    + split; [lia|]. intros [? _]%Forall_cons. done.
Qed.

Lemma count_true_replicate n : count_true (replicate n false) = 0.
Proof.
  unfold count_true. induction n as [|n IH]; [done|].
  simpl. by rewrite filter_cons, decide_False.
Qed.

(** All cards are matched exactly when all flags are set. *)
Lemma forallb_matched_marked n pool flags :
  length flags = length pool →
  forallb matched (marked_from n pool flags) = true ↔ Forall (λ f, f = true) flags.
Proof.
  revert n flags. induction pool as [|e pool IH]; intros n [|f flags] Hlen;
    simplify_eq/=.
  - split; [constructor|done].
  - rewrite Forall_cons, !andb_true_iff, IH by done.
    split; [by intros (? & _ & ?)|by intros [? ?]].
Qed.

Lemma forallb_Permutation {A} (p : A → bool) l1 l2 :
  l1 ≡ₚ l2 → forallb p l1 = forallb p l2.
Proof.
  induction 1 as [|x l1 l2 _ IH|x y l|l1 l2 l3 _ IH1 _ IH2]; simpl.
  - done.
  - by rewrite IH.
  - by destruct (p x), (p y).
  - by rewrite IH1.
Qed.

Lemma find_card_elem_of cardId d card :
  find_card cardId d = Some card → card ∈ d.
Proof.
  unfold find_card. destruct (list_find _ d) as [[i c]|] eqn:H; [|done].
  intros [= <-]. apply list_find_Some in H as (H & _). by eapply list_elem_of_lookup_2.
Qed.

(** What [handleFlip] schedules: nothing while input is locked; otherwise a
    callback only together with locking the input, and the callback of a
    match only for a card of the deck that is not matched yet. *)
Lemma handleFlip_timer cardId a :
  (locked a = true → handleFlip cardId a = (a, None)) ∧
  ((handleFlip cardId a).2 = None →
     locked (handleFlip cardId a).1 = true ∨ locked (handleFlip cardId a).1 = locked a) ∧
  (∀ t, (handleFlip cardId a).2 = Some t →
     locked (handleFlip cardId a).1 = true ∧
     ∀ card render, t = OnMatch card render → card ∈ deck a ∧ matched card = false).
Proof.
  split_and!.
  - intros Hl. unfold handleFlip. by rewrite Hl.
  - FlipFacts.flip_cases cardId a; simpl; intros Hnone; try done;
      try (by right); try (by left); destruct (running a); by right.
  - FlipFacts.flip_cases cardId a; simpl; intros t Ht; simplify_eq.
    + split; [done|]. intros c r [= <- <-]. split; [|done].
      by eapply find_card_elem_of.
    + split; [done|]. by intros c r ?.
Qed.

(** The state after the callback of a match. *)
Lemma on_match_app_fields e card render w :
  let w' := on_match e card render w in
  deck (app w') = mark_matched (pairId card) (deck (app w)) ∧
  matches (app w') = matches (app w) + 1 ∧
  pairs (app w') = pairs (app w) ∧
  locked (app w') = false ∧
  timers w' = timers w.
Proof.
  unfold on_match. destruct (matches render + 1 =? pairs render); [|done].
  destruct (Leaderboard.saveScoreLocal _ _);
    destruct (saveScoreRemote _ _ _ _); done.
Qed.

Lemma restart_paired p a g ts it table :
  0 ≤ p ≤ 28 → pairs a = p →
  paired (mkWorld (restart p a g).1 [] ts it table).
Proof.
  intros Hp Hpairs. unfold restart.
  destruct (DeckFacts.generateDeck_shape p g) as (pool & _ & _ & Hlen & Hd).
  destruct (generateDeck p g) as [d g']. simpl in *.
  specialize (Hlen ltac:(lia)).
  exists pool, (replicate (length pool) false). split_and!.
  - by rewrite length_replicate.
  - lia.
  - simpl. lia.
  - simpl. by rewrite marked_from_unmatched.
  - simpl. by rewrite count_true_replicate.
  - done.
Qed.

Lemma restart_snd p a g : (restart p a g).2 = (generateDeck p g).2.
Proof. unfold restart. by destruct (generateDeck p g). Qed.

Lemma init_paired g it table : paired (init g it table).
Proof.
  unfold init. destruct (generateDeck 12 g) as [d g1].
  set (a0 := set_pairs _ _).
  pose proof (restart_paired 12 a0 g1 (restart 12 a0 g1).2 it table ltac:(lia) eq_refl) as H.
  change (pairs_of Leaderboard.medium) with 12.
  by destruct (restart 12 a0 g1) as [a g2].
Qed.

Lemma timers_ok_unlocked w flags :
  timers_ok w flags → locked (app w) = false → timers w = [].
Proof.
  unfold timers_ok. destruct (timers w) as [|[card render|] [|]]; try done.
  - intros [? _] ?. congruence.
  - intros ? ?. congruence.
Qed.

Lemma timers_ok_lookup w flags k t :
  timers_ok w flags → timers w !! k = Some t → k = 0%nat ∧ timers w = [t].
Proof.
  unfold timers_ok. destruct (timers w) as [|t0 [|]]; [done| |by destruct t0].
  intros _ Hk. destruct k as [|k]; simplify_eq/=. done.
Qed.

Lemma not_overtaken_restart w :
  ¬ overtakes w Restart → timers w = [].
Proof.
  unfold overtakes. intros H. destruct (timers w) as [|t ts]; [done|].
  destruct H. split; [done|by left].
Qed.

Lemma not_overtaken_difficulty w d :
  d ≠ difficulty (app w) → ¬ overtakes w (SetDifficulty d) → timers w = [].
Proof.
  unfold overtakes. intros Hd H. destruct (timers w) as [|t ts]; [done|].
  destruct H. split; [done|]. right. by exists d.
Qed.

(** The invariant is kept by every event that does not overtake a pending
    callback. *)
Lemma paired_step w ev : paired w → ¬ overtakes w ev → paired (step w ev).
Proof.
  intros (pool & flags & Hlen & H28 & Hp & Hd & Hm & Ht) Hno.
  destruct ev as [cardId|k e| | |d| |n| | |it].
  - (* Flip *)
    simpl. pose proof (FlipFacts.handleFlip_keeps cardId (app w)) as Hkeep.
    pose proof (handleFlip_timer cardId (app w)) as (Hlocked & Hnone & Hsome).
    destruct (handleFlip cardId (app w)) as [a t] eqn:Hflip. simpl in *.
    destruct Hkeep as (Hdeck & Hmatches & _ & Hpairs & _).
    exists pool, flags. simpl. rewrite Hdeck, Hmatches, Hpairs.
    split_and!; try done. unfold timers_ok. simpl.
    destruct (locked (app w)) eqn:Hl.
    + specialize (Hlocked eq_refl). simplify_eq. by rewrite app_nil_r.
    + rewrite (timers_ok_unlocked w flags Ht Hl). simpl.
      destruct t as [[card render|]|]; simpl; [| |done].
      * destruct (Hsome _ eq_refl) as [Hl' Hcard].
        destruct (Hcard card render eq_refl) as [Hin Hunmatched].
        split; [done|]. rewrite Hd in Hin.
        apply elem_of_marked_from in Hin as (k & f & Hk & Hpid & Hf).
        exists k. split; [done|]. congruence.
      * by destruct (Hsome _ eq_refl) as [Hl' _].
  - (* Fire *)
    simpl. destruct (timers w !! k) as [t|] eqn:Hk;
      [|by exists pool, flags].
    destruct (timers_ok_lookup w flags k t Ht Hk) as [-> Hts].
    unfold timers_ok in Ht. rewrite Hts in Ht |- *. simpl.
    destruct t as [card render|].
    + destruct Ht as [Hl (k & Hpid & Hflag)].
      match goal with |- paired (on_match e card render ?w0) =>
        pose proof (on_match_app_fields e card render w0) as
          (Hdeck & Hmatches & Hpairs & Hlocked & Htimers);
        set (w' := on_match e card render w0) in * end.
      simpl in *. exists pool, (<[k:=true]> flags).
      rewrite Hdeck, Hmatches, Hpairs, Hpid. split_and!.
      * by rewrite length_insert.
      * done.
      * done.
      * rewrite <-(mark_matched_marked_from 0 pool flags k Hlen)
          by (by eapply lookup_lt_Some).
        unfold mark_matched. by apply Permutation_map.
      * by rewrite count_true_insert, Hm.
      * unfold timers_ok. by rewrite Htimers.
    + by exists pool, flags.
  - (* Tick *)
    simpl. destruct (running (app w)); by exists pool, flags.
  - (* Restart *)
    cbn [step]. rewrite (not_overtaken_restart w Hno).
    pose proof (restart_paired (pairs (app w)) (app w) (rng w)
                  (restart (pairs (app w)) (app w) (rng w)).2 (cache w) (table w)
                  ltac:(lia) eq_refl) as H.
    by destruct (restart (pairs (app w)) (app w) (rng w)) as [a g].
  - (* SetDifficulty *)
    cbn [step]. case_bool_decide as Hsame; [by exists pool, flags|].
    rewrite (not_overtaken_difficulty w d Hsame Hno).
    set (a0 := set_pairs _ _).
    assert (0 ≤ pairs_of d ≤ 28) as Hrange by (destruct d; simpl; lia).
    pose proof (restart_paired (pairs_of d) a0 (rng w)
                  (restart (pairs_of d) a0 (rng w)).2 (cache w) (table w)
                  Hrange eq_refl) as H.
    by destruct (restart (pairs_of d) a0 (rng w)) as [a g].
  - by exists pool, flags.
  - by exists pool, flags.
  - by exists pool, flags.
  - by exists pool, flags.
  - by exists pool, flags.
Qed.

Lemma overtakesb_spec w ev : overtakesb w ev = false → ¬ overtakes w ev.
Proof.
  unfold overtakesb, overtakes. intros H [Hts Hev].
  destruct (timers w) as [|t ts]; [done|].
  destruct Hev as [->|(d & -> & Hd)]; [done|].
  apply negb_false_iff, bool_decide_eq_true in H. done.
Qed.

Lemma orderly_run w evs : orderly w → orderlyb w evs = true → orderly (run w evs).
Proof.
  revert w. induction evs as [|ev evs IH]; intros w Hw H; [done|].
  simpl in H. apply andb_true_iff in H as [Hev Hevs].
  apply negb_true_iff, overtakesb_spec in Hev.
  apply IH; [by constructor|done].
Qed.

Lemma orderly_paired w : orderly w → paired w.
Proof.
  induction 1 as [g it table|w ev _ IH Hno].
  - apply init_paired.
  - by apply paired_step.
Qed.



End InvariantFacts.

(** ** The game: completion and the recording of scores *)
Module CompletionFacts.
Import Deck Game.

(** C5 fails on the code when a restart overtakes a pending callback: after
    [stale_match] the match counter equals the pair count, the game is
    declared complete and its score recorded, while the pair p7 is still
    face down. *)
Theorem stale_match_completes_early :
  let w := run (init (Rand.const 0) Leaderboard.Absent []) stale_match in
  reachable w ∧
  matches (app w) = 8 ∧ pairs (app w) = 8 ∧ allMatched (app w) = false ∧
  map matched (filter (λ c, pairId c = "p7"%string) (deck (app w))) = [false; false] ∧
  length (table w) = 1%nat.
Proof.
  split; [by eexists _, _, _, _|].
  split; [vm_compute; reflexivity|].
  split; [vm_compute; reflexivity|].
  split; [vm_compute; reflexivity|].
  split; vm_compute; reflexivity.
Qed.

(** Without the restart the same play ends as C5 says. *)
Lemma easy_game_completes :
  let w := run (init (Rand.const 0) Leaderboard.Absent [])
             (SetDifficulty Leaderboard.easy :: play_all online 8) in
  matches (app w) = 8 ∧ pairs (app w) = 8 ∧ allMatched (app w) = true ∧
  cache w = Leaderboard.Board [easy_score].
Proof. split_and!; vm_compute; reflexivity. Qed.

(** The game state after the callback of a match does not depend on what
    the environment does. *)
Lemma on_match_app e e' card render w b :
  set_leaderboard b (app (on_match e card render w))
  = set_leaderboard b (app (on_match e' card render w)).
Proof.
  unfold on_match. destruct (matches render + 1 =? pairs render); [|done].
  assert (Leaderboard.saveScoreLocal (score_of e render) (cache w) = None ↔
          Leaderboard.saveScoreLocal (score_of e' render) (cache w) = None) as Hnone.
  { unfold Leaderboard.saveScoreLocal.
    by destruct (Leaderboard.loadLeaderboard (cache w)). }
  destruct (Leaderboard.saveScoreLocal (score_of e render) (cache w)) eqn:H1;
    destruct (Leaderboard.saveScoreLocal (score_of e' render) (cache w)) eqn:H2;
    try (by destruct Hnone as [? ?]; naive_solver);
    repeat (destruct (saveScoreRemote _ _ _ _)); done.
Qed.

(** C8, as the code has it. When the last pair is matched and the cache
    holds a list of scores (or nothing that parses), the score is saved to
    the cache (put in order, the best 20 kept) whatever becomes of the
    submission. When the submission is delivered that is the only local
    save: the cache then holds the score, if it was not there before,
    exactly once when fewer than 20 cached scores go before it, and not at
    all otherwise. When the submission fails the table of the service stays
    as it was, and the score is in the cache when fewer than 20 cached
    scores go before it. In no case does the outcome of the submission
    change the state of the game. *)
Theorem completion_saves_score (e : Env) (card : Card) (render : App)
    (w : World) (board : list Leaderboard.Score) :
  matches render + 1 = pairs render →
  Leaderboard.loadLeaderboard (cache w) = Leaderboard.Seq board →
  let s := score_of e render in
  let w' := on_match e card render w in
  let saved :=
    Leaderboard.Board (take 20 (Leaderboard.sort_scores (board ++ [s]))) in
  Leaderboard.saveScoreLocal s (cache w) = Some saved ∧
  (post e = Delivered →
     cache w' = saved ∧
     table w' = (Server.post_scores (server_clock e) (body_of s) (table w)).2 ∧
     (s ∉ board →
        Leaderboard.occurrences s (cache w')
        = if decide (Leaderboard.rank s board < 20)%nat then 1%nat else 0%nat)) ∧
  (post e = NetworkError →
     table w' = table w ∧
     (s ∉ board → (Leaderboard.rank s board < 20)%nat →
        (1 ≤ Leaderboard.occurrences s (cache w'))%nat)) ∧
  (∀ e' b, set_leaderboard b (app (on_match e' card render w))
           = set_leaderboard b (app w')).
Proof.
  intros Hlast Hload s w' saved.
  pose proof (CacheFacts.saveScoreLocal_Seq s _ _ Hload) as Hsave. fold saved in Hsave.
  assert (Leaderboard.loadLeaderboard saved
          = Leaderboard.Seq (take 20 (Leaderboard.sort_scores (board ++ [s])))) as Hload'
    by done.
  split_and!.
  - done.
  - intros Hpost. unfold w', on_match. fold s.
    rewrite (proj2 (Z.eqb_eq _ _) Hlast), Hsave.
    unfold saveScoreRemote. rewrite Hpost. simpl. split_and!; [done|done|].
    intros Hs. by apply CacheFacts.count_saved_rank.
  - intros Hpost. unfold w', on_match. fold s.
    rewrite (proj2 (Z.eqb_eq _ _) Hlast), Hsave.
    unfold saveScoreRemote, save_local. rewrite Hpost.
    rewrite (CacheFacts.saveScoreLocal_Seq s _ _ Hload'). simpl.
    split; [done|]. intros Hs Hb. by apply CacheFacts.count_saved_twice.
  - intros e' b. apply on_match_app.
Qed.

(** The last callback of the easy game, with the service reachable. *)
Lemma completion_saves_score_witness :
  matches (pending_render last_pair_turned) + 1 = pairs (pending_render last_pair_turned) ∧
  Leaderboard.loadLeaderboard (cache last_pair_turned) = Leaderboard.Seq [] ∧
  Leaderboard.saveScoreLocal (score_of online (pending_render last_pair_turned))
    (cache last_pair_turned)
  = Some (Leaderboard.Board (take 20 (Leaderboard.sort_scores
            ([] ++ [score_of online (pending_render last_pair_turned)])))).
Proof.
  assert (matches (pending_render last_pair_turned) + 1
          = pairs (pending_render last_pair_turned)) as H1
    by (vm_compute; reflexivity).
  assert (Leaderboard.loadLeaderboard (cache last_pair_turned) = Leaderboard.Seq []) as H2
    by (vm_compute; reflexivity).
  split; [exact H1|]. split; [exact H2|].
  exact (proj1 (completion_saves_score online (pending_card last_pair_turned)
                  (pending_render last_pair_turned) last_pair_turned [] H1 H2)).
Defined.

(** C8 as stated fails: a game completed over a cache that is full of
    better scores leaves its score out of the cache, though the service
    stored it. *)
Lemma full_cache_drops_score :
  let w := run (init (Rand.const 0) full_cache [])
             (SetDifficulty Leaderboard.easy :: play_all online 8) in
  allMatched (app w) = true ∧ matches (app w) = pairs (app w) ∧
  Leaderboard.occurrences easy_score (cache w) = 0%nat ∧
  cache w = full_cache ∧
  map Server.name (table w) = ["Player"]%string.
Proof. split_and!; vm_compute; reflexivity. Qed.

(** The same game completed while the service cannot be reached: the score
    is saved once at once and once more when the submission fails, and
    stands twice in the cache. *)
Lemma failed_submission_saves_twice :
  let w := run (init (Rand.const 0) Leaderboard.Absent [])
             (SetDifficulty Leaderboard.easy :: play_all offline 8) in
  allMatched (app w) = true ∧
  cache w = Leaderboard.Board [easy_score; easy_score] ∧
  table w = [].
Proof. split_and!; vm_compute; reflexivity. Qed.

Lemma save_local_loadable s it :
  Leaderboard.loadable it → Leaderboard.loadable (save_local s it).
Proof.
  intros Hit. unfold save_local.
  destruct (Leaderboard.saveScoreLocal s it) as [it'|] eqn:Hsave; [|done].
  apply CacheFacts.saveScoreLocal_board in Hsave as (l & -> & _). by exists l.
Qed.

Lemma on_match_loadable e card render w :
  Leaderboard.loadable (cache w) →
  Leaderboard.loadable (cache (on_match e card render w)).
Proof.
  intros Hc. unfold on_match. destruct (matches render + 1 =? pairs render); [|done].
  destruct (Leaderboard.saveScoreLocal _ (cache w)) as [it1|] eqn:Hsave.
  - apply CacheFacts.saveScoreLocal_board in Hsave as (l & -> & _).
    unfold saveScoreRemote. destruct (post e); simpl.
    + apply save_local_loadable. by exists l.
    + by exists l.
  - unfold saveScoreRemote. destruct (post e); simpl; [|done].
    by apply save_local_loadable.
Qed.

(** The game itself never leaves in the cache an item from which the
    retrieval returns something else than a sequence: only another page
    can. *)
Lemma step_loadable w ev :
  Leaderboard.loadable (cache w) →
  (∀ it, ev = Storage it → Leaderboard.loadable it) →
  Leaderboard.loadable (cache (step w ev)).
Proof.
  intros Hc Hev. destruct ev as [cardId|k e| | |d| |n| | |it]; cbn [step].
  - by destruct (handleFlip cardId (app w)).
  - destruct (timers w !! k) as [[card render|]|]; [|done|done].
    by apply on_match_loadable.
  - by destruct (running (app w)).
  - by destruct (restart _ _ _).
  - case_bool_decide; [done|]. by destruct (restart _ _ _).
  - done.
  - done.
  - by exists [].
  - done.
  - by apply Hev.
Qed.

End CompletionFacts.

